(** * LiveSessionService: a shallow embedding of src/services/liveSessionService.ts

    The development follows the TypeScript class member by member.

    - Part 1 (module [Codec]) embeds the two private helpers [pcmToB64] and
      [b64ToPcm] together with the host functions they call ([btoa], [atob],
      the typed-array views over an [ArrayBuffer]).
    - Part 2 (module [Live]) embeds the stateful, asynchronous part of the
      class: the fields of [this], the host objects the class drives (audio
      contexts, media stream, graph nodes, transport handles, timers) and the
      methods, written in a small resumption monad whose [Await] nodes are
      the [await] points of the source.

    Numbers.  Audio samples and device times are IEEE floats in the source.
    Samples are modelled as rationals: for every [Float32] input the products
    [s * 0x8000] and [s * 0x7FFF] (24-bit by 16-bit significands) and the
    quotient [int16 / 32768.0] are exact in double precision, so the codec
    computes on rationals exactly what the source computes.  Device times,
    buffer durations and the playback cursor are IEEE 754 doubles, as in the
    source (module [Number]): [+=] and [/] round to the nearest double. *)

From Stdlib Require Import ZArith QArith Qround Qminmax Qabs Floats.
From Stdlib Require Import String Ascii Bool Lia Lqa.
From Stdlib Require Import List.
Import ListNotations.

Local Open Scope Z_scope.

(** Audio configuration constants (lines 5-6 of the source). *)
Definition INPUT_SAMPLE_RATE : Z := 16000.
Definition OUTPUT_SAMPLE_RATE : Z := 24000.

(** Exceptions a host call or a language operation can throw. *)
Inductive Exn : Type :=
| RangeError
| TypeError
| InvalidCharacterError
| NotSupportedError
| InvalidStateError
| NotAllowedError
| NetworkError (code : nat).

(** The outcome of an expression that may throw. *)
Inductive Res (A : Type) : Type :=
| Ok (a : A)
| Raise (e : Exn).
Arguments Ok {A} a.
Arguments Raise {A} e.

(* ================================================================== *)
(** * Part 1: the PCM codec *)
(* ================================================================== *)

Module Codec.

(** ** Host functions: base64 *)

Definition alphabet : string :=
  "ABCDEFGHIJKLMNOPQRSTUVWXYZabcdefghijklmnopqrstuvwxyz0123456789+/".

Definition pad_char : ascii := "="%char.

(** The character of a sextet. *)
Definition b64char (n : Z) : ascii :=
  match String.get (Z.to_nat n) alphabet with
  | Some c => c
  | None => pad_char
  end.

(** The sextet of a character of the alphabet. *)
Definition b64val (c : ascii) : option Z :=
  let n := Z.of_nat (nat_of_ascii c) in
  if (65 <=? n) && (n <=? 90) then Some (n - 65)
  else if (97 <=? n) && (n <=? 122) then Some (n - 97 + 26)
  else if (48 <=? n) && (n <=? 57) then Some (n - 48 + 52)
  else if n =? 43 then Some 62
  else if n =? 47 then Some 63
  else None.

(** Sextets of a byte sequence, three bytes to four sextets; a final group
    of one or two bytes gives two or three sextets. *)
Fixpoint enc_sextets (bs : list Z) : list Z :=
  match bs with
  | [] => []
  | [a] => [a / 4; (a mod 4) * 16]
  | [a; b] => [a / 4; (a mod 4) * 16 + b / 16; (b mod 16) * 4]
  | a :: b :: c :: rest =>
      a / 4 :: (a mod 4) * 16 + b / 16 :: (b mod 16) * 4 + c / 64 :: c mod 64
        :: enc_sextets rest
  end.

Definition npad (n : nat) : nat :=
  match Nat.modulo n 3 with
  | 1%nat => 2%nat
  | 2%nat => 1%nat
  | _ => 0%nat
  end.

Definition is_latin1 (c : Z) : bool := (0 <=? c) && (c <=? 255).

(** [btoa]: a binary string (a sequence of UTF-16 code units) to base64
    text; throws when a code unit is above 255. *)
Definition btoa (binary : list Z) : Res string :=
  if forallb is_latin1 binary then
    Ok (string_of_list_ascii
          (map b64char (enc_sextets binary)
             ++ repeat pad_char (npad (length binary))))
  else Raise InvalidCharacterError.

(** ASCII whitespace: TAB, LF, FF, CR, SPACE. *)
Definition is_ws (c : ascii) : bool :=
  let n := nat_of_ascii c in
  (n =? 9)%nat || (n =? 10)%nat || (n =? 12)%nat || (n =? 13)%nat
  || (n =? 32)%nat.

Definition is_pad (c : ascii) : bool := (nat_of_ascii c =? 61)%nat.

(** Removes one or two padding characters at the end of the text. *)
Definition strip_padding (cs : list ascii) : list ascii :=
  match rev cs with
  | p1 :: p2 :: r =>
      if is_pad p1 then (if is_pad p2 then rev r else rev (p2 :: r)) else cs
  | [p1] => if is_pad p1 then [] else cs
  | [] => []
  end.

Fixpoint sextets (cs : list ascii) : option (list Z) :=
  match cs with
  | [] => Some []
  | c :: rest =>
      match b64val c, sextets rest with
      | Some v, Some vs => Some (v :: vs)
      | _, _ => None
      end
  end.

(** Bytes of a sextet sequence; the bits left over by a final group of two
    or three sextets are discarded. *)
Fixpoint dec_sextets (vs : list Z) : list Z :=
  match vs with
  | a :: b :: c :: d :: rest =>
      a * 4 + b / 16 :: (b mod 16) * 16 + c / 4 :: (c mod 4) * 64 + d
        :: dec_sextets rest
  | [a; b; c] => [a * 4 + b / 16; (b mod 16) * 16 + c / 4]
  | [a; b] => [a * 4 + b / 16]
  | _ => []
  end.

(** [atob]: the forgiving base64 decoder of the host. *)
Definition atob (base64 : string) : Res (list Z) :=
  let cs := filter (fun c => negb (is_ws c)) (list_ascii_of_string base64) in
  let cs := if (Nat.modulo (length cs) 4 =? 0)%nat then strip_padding cs
            else cs in
  if (Nat.modulo (length cs) 4 =? 1)%nat then Raise InvalidCharacterError
  else match sextets cs with
       | Some vs => Ok (dec_sextets vs)
       | None => Raise InvalidCharacterError
       end.

(** ** Host functions: typed arrays *)

(** [ToInt16] of a number: truncation towards zero, then wrap-around. *)
Definition Qtrunc (q : Q) : Z := Z.quot (Qnum q) (Zpos (Qden q)).

Definition signed16 (u : Z) : Z := if 32768 <=? u then u - 65536 else u.

Definition ToInt16 (q : Q) : Z := signed16 (Qtrunc q mod 65536).

(** The two bytes of an [Int16Array] element, little-endian. *)
Definition int16_bytes (v : Z) : list Z :=
  let u := v mod 65536 in [u mod 256; u / 256].

(** [new Uint8Array(int16Array.buffer)]. *)
Definition bytes_of_int16s (l : list Z) : list Z := flat_map int16_bytes l.

(** The elements of an [Int16Array] laid over a byte buffer. *)
Fixpoint int16s_of_bytes (bs : list Z) : list Z :=
  match bs with
  | lo :: hi :: rest => signed16 (lo + 256 * hi) :: int16s_of_bytes rest
  | _ => []
  end.

(** [new Int16Array(bytes.buffer)]: throws when the byte length is odd. *)
Definition Int16Array_of_buffer (bs : list Z) : Res (list Z) :=
  if Nat.even (length bs) then Ok (int16s_of_bytes bs) else Raise RangeError.

(** ** pcmToB64 (lines 218-231) *)

Definition Qltb (x y : Q) : bool := negb (Qle_bool y x).

(** [Math.max(-1, Math.min(1, x))]. *)
Definition clamp (x : Q) : Q :=
  let m := if Qltb x 1 then x else 1%Q in
  if Qltb m (-1) then (-1)%Q else m.

(** [s < 0 ? s * 0x8000 : s * 0x7FFF], stored into an [Int16Array]. *)
Definition quantize (x : Q) : Z :=
  let s := clamp x in
  ToInt16 (if Qltb s 0 then (s * 32768)%Q else (s * 32767)%Q).

(** The number the loop of [pcmToB64] assigns to [int16Array[i]], before
    the store converts it to 16 bits. *)
Definition scaled (x : Q) : Q :=
  let s := clamp x in
  if Qltb s 0 then (s * 32768)%Q else (s * 32767)%Q.

Definition pcmToB64 (float32Array : list Q) : Res string :=
  let int16Array := map quantize float32Array in
  let bytes := bytes_of_int16s int16Array in
  let binary := bytes in
  btoa binary.

(** ** b64ToPcm (lines 233-246) *)

Definition b64ToPcm (base64 : string) : Res (list Q) :=
  match atob base64 with
  | Raise e => Raise e
  | Ok binary =>
      let bytes := map (fun c => c mod 256) binary in
      match Int16Array_of_buffer bytes with
      | Raise e => Raise e
      | Ok int16 => Ok (map (fun v => (inject_Z v / 32768)%Q) int16)
      end
  end.

(** ** Ranges and the sample a round trip gives *)

Definition sextet (n : Z) : Prop := 0 <= n < 64.
Definition octet (n : Z) : Prop := 0 <= n < 256.
Definition int16 (v : Z) : Prop := -32768 <= v <= 32767.

(** A check of all 64 sextets. *)
Definition all_sextets (P : Z -> bool) : bool :=
  forallb P (map Z.of_nat (seq 0 64)).

(** The sample a sample is decoded to after it was encoded. *)
Definition requantize (x : Q) : Q := (inject_Z (quantize x) / 32768)%Q.

End Codec.

(* ================================================================== *)
(** * JavaScript numbers *)
(* ================================================================== *)

Module Number.

(** A number of the source is an IEEE 754 binary64 value: the kernel's
    [float], whose [+], [/] and [<] are the operations of the standard
    (round to nearest, ties to even; a comparison with NaN is false). *)

(** The number nearest to an integer, as when a [length] or a sample rate
    enters a floating-point operation. *)
Definition of_int (z : Z) : float :=
  SF2Prim (binary_normalize prec emax z 0 false).

(** Neither NaN nor negative. *)
Definition nonneg (x : float) : Prop := (0 <=? x)%float = true.

(** Neither NaN nor infinite. *)
Definition finite (x : float) : Prop := is_finite x = true.

(** The exact value of a finite number. *)
Definition value (x : float) : Q :=
  match Prim2SF x with
  | S754_finite s m e => (inject_Z (cond_Zopp s (Zpos m)) * Qpower 2 e)%Q
  | _ => 0%Q
  end.

(** ** The order of the numbers that are not negative *)

(** Zero, a positive finite number or plus infinity. *)
Definition SFnonneg (v : spec_float) : bool :=
  match v with
  | S754_zero _ | S754_infinity false | S754_finite false _ _ => true
  | _ => false
  end.

(** The place of such a number in the order: zeros first, then the finite
    numbers by exponent and mantissa, then infinity. *)
Definition rank (v : spec_float) : Z * Z * Z :=
  match v with
  | S754_finite _ m e => (1, e, Zpos m)
  | S754_infinity _ => (2, 0, 0)
  | _ => (0, 0, 0)
  end.

Definition rank_le (a b : Z * Z * Z) : Prop :=
  let '(c1, e1, m1) := a in
  let '(c2, e2, m2) := b in
  c1 < c2 \/ (c1 = c2 /\ (e1 < e2 \/ (e1 = e2 /\ m1 <= m2))).

Definition rank_lt (a b : Z * Z * Z) : Prop :=
  let '(c1, e1, m1) := a in
  let '(c2, e2, m2) := b in
  c1 < c2 \/ (c1 = c2 /\ (e1 < e2 \/ (e1 = e2 /\ m1 < m2))).

End Number.

(* ================================================================== *)
(** * Part 2: the session service *)
(* ================================================================== *)

Module Live.

Import Codec Number.

(** ** The fields of [this] (lines 9-17) *)

Definition handle := nat.
Bind Scope nat_scope with handle.

Record Service : Type := mkService {
  inputContext : option handle;
  outputContext : option handle;
  inputSource : option handle;
  processor : option handle;
  currentStream : option handle;
  nextStartTime : float;
  isConnected : bool;
  sessionPromise : option handle
}.

(** The object right after the constructor. *)
Definition new_service : Service :=
  mkService None None None None None 0%float false None.

Definition set_inputContext (v : option handle) (s : Service) : Service :=
  mkService v (outputContext s) (inputSource s) (processor s)
    (currentStream s) (nextStartTime s) (isConnected s) (sessionPromise s).
Definition set_outputContext (v : option handle) (s : Service) : Service :=
  mkService (inputContext s) v (inputSource s) (processor s)
    (currentStream s) (nextStartTime s) (isConnected s) (sessionPromise s).
Definition set_inputSource (v : option handle) (s : Service) : Service :=
  mkService (inputContext s) (outputContext s) v (processor s)
    (currentStream s) (nextStartTime s) (isConnected s) (sessionPromise s).
Definition set_processor (v : option handle) (s : Service) : Service :=
  mkService (inputContext s) (outputContext s) (inputSource s) v
    (currentStream s) (nextStartTime s) (isConnected s) (sessionPromise s).
Definition set_currentStream (v : option handle) (s : Service) : Service :=
  mkService (inputContext s) (outputContext s) (inputSource s) (processor s)
    v (nextStartTime s) (isConnected s) (sessionPromise s).
Definition set_nextStartTime (v : float) (s : Service) : Service :=
  mkService (inputContext s) (outputContext s) (inputSource s) (processor s)
    (currentStream s) v (isConnected s) (sessionPromise s).
Definition set_isConnected (v : bool) (s : Service) : Service :=
  mkService (inputContext s) (outputContext s) (inputSource s) (processor s)
    (currentStream s) (nextStartTime s) v (sessionPromise s).
Definition set_sessionPromise (v : option handle) (s : Service) : Service :=
  mkService (inputContext s) (outputContext s) (inputSource s) (processor s)
    (currentStream s) (nextStartTime s) (isConnected s) v.

(** ** The host: the objects the class drives *)

Inductive CtxState : Type := running | suspended | closed.

Record AudioCtx : Type := mkCtx {
  sampleRate : Z;
  state : CtxState;
  currentTime : float      (* device time of the context, in seconds *)
}.

Inductive TransportState : Type := connecting | opened | shut | failed.

(** What the code does that an observer outside the class can see, in the
    order in which it happens. *)
Inductive Effect : Type :=
| ConsoleLog (msg : string)
| ConsoleWarn (msg : string) (delay : Z) (retries : nat)
| ConsoleError (msg : string) (e : Exn)
| OnAudioActivity (active : bool)      (* the caller's activity callback *)
| OnError (e : Exn)                    (* the caller's error callback *)
| NewAudioContext (c : handle) (rate : Z)
| Resume (c : handle)
| GetUserMedia
| LiveConnect (t : handle) (topic : string)
| SetTimeout (delay : Z)
| CreateNode (n : handle)
| Disconnect (n : handle)
| TrackStop (s : handle)
| Close (c : handle)
| SourceStart (c : handle) (when duration : float)
| Unhandled (e : Exn)                  (* a rejection nobody handles *)
| Elapsed (dt : Z).                    (* time passes, in milliseconds *)

Record Host : Type := mkHost {
  contexts : list AudioCtx;            (* every AudioContext created *)
  streams : list bool;                 (* media streams: are the tracks live *)
  nodes : list bool;                   (* graph nodes: are they connected *)
  transports : list (bool * TransportState);
                                       (* connections asked of the endpoint,
                                          each with whether onError was given *)
  promises : nat;                      (* promises handed to sessionPromise *)
  clock : Z;                           (* wall clock, in milliseconds *)
  autoplay : CtxState;                 (* the state a new context starts in *)
  trace : list Effect
}.

Definition new_host (policy : CtxState) : Host :=
  mkHost [] [] [] [] 0 0 policy [].

Definition set_contexts (v : list AudioCtx) (h : Host) : Host :=
  mkHost v (streams h) (nodes h) (transports h) (promises h) (clock h)
    (autoplay h) (trace h).
Definition set_streams (v : list bool) (h : Host) : Host :=
  mkHost (contexts h) v (nodes h) (transports h) (promises h) (clock h)
    (autoplay h) (trace h).
Definition set_nodes (v : list bool) (h : Host) : Host :=
  mkHost (contexts h) (streams h) v (transports h) (promises h) (clock h)
    (autoplay h) (trace h).
Definition set_transports (v : list (bool * TransportState)) (h : Host)
  : Host :=
  mkHost (contexts h) (streams h) (nodes h) v (promises h) (clock h)
    (autoplay h) (trace h).
Definition set_promises (v : nat) (h : Host) : Host :=
  mkHost (contexts h) (streams h) (nodes h) (transports h) v (clock h)
    (autoplay h) (trace h).
Definition set_clock (v : Z) (h : Host) : Host :=
  mkHost (contexts h) (streams h) (nodes h) (transports h) (promises h) v
    (autoplay h) (trace h).
Definition set_trace (v : list Effect) (h : Host) : Host :=
  mkHost (contexts h) (streams h) (nodes h) (transports h) (promises h)
    (clock h) (autoplay h) v.

Definition emit (e : Effect) (h : Host) : Host :=
  set_trace (trace h ++ [e]) h.

(** Update of the [i]-th element of a table; nothing out of range. *)
Fixpoint update {X : Type} (i : nat) (f : X -> X) (l : list X) : list X :=
  match l, i with
  | [], _ => []
  | x :: r, O => f x :: r
  | x :: r, S j => x :: update j f r
  end.

Definition set_state (v : CtxState) (c : AudioCtx) : AudioCtx :=
  mkCtx (sampleRate c) v (currentTime c).

Definition Machine : Type := (Service * Host)%type.

(** ** Asynchronous programs

    A method body is a tree: reads and writes of the machine, a [throw], a
    [setTimeout] with its callback, and [await] points where the function
    is suspended until the host settles the awaited promise.  Between two
    [Await] nodes the code runs without interruption. *)

Inductive Wait : Type :=
| W_resume (c : handle)          (* audioContext.resume() *)
| W_getUserMedia                 (* navigator.mediaDevices.getUserMedia *)
| W_connect (t : handle)         (* ai.live.connect *)
| W_timeout (due : Z).           (* new Promise(res => setTimeout(res, d)) *)

Inductive Outcome : Type :=
| Fulfilled (v : handle)
| Rejected (e : Exn).

Inductive Prog (A : Type) : Type :=
| Ret (a : A)
| Throw (e : Exn)
| Get (k : Machine -> Prog A)
| Put (m : Machine) (k : Prog A)
| Await (w : Wait) (k : Outcome -> Prog A)
| Later (delay : Z) (callback : Prog unit) (k : Prog A).

Arguments Ret {A} a.
Arguments Throw {A} e.
Arguments Get {A} k.
Arguments Put {A} m k.
Arguments Await {A} w k.
Arguments Later {A} delay callback k.

Fixpoint bind {A B : Type} (p : Prog A) (f : A -> Prog B) : Prog B :=
  match p with
  | Ret a => f a
  | Throw e => Throw e
  | Get k => Get (fun m => bind (k m) f)
  | Put m k => Put m (bind k f)
  | Await w k => Await w (fun o => bind (k o) f)
  | Later d cb k => Later d cb (bind k f)
  end.

(** [try { p } catch (error) { h error }]. *)
Fixpoint try_catch {A : Type} (p : Prog A) (h : Exn -> Prog A) : Prog A :=
  match p with
  | Ret a => Ret a
  | Throw e => h e
  | Get k => Get (fun m => try_catch (k m) h)
  | Put m k => Put m (try_catch k h)
  | Await w k => Await w (fun o => try_catch (k o) h)
  | Later d cb k => Later d cb (try_catch k h)
  end.

Declare Scope prog_scope.
Delimit Scope prog_scope with prog.
Bind Scope prog_scope with Prog.
Notation "x <- p ;; q" := (bind p (fun x => q))
  (at level 61, p at next level, right associativity) : prog_scope.
Notation "p ;; q" := (bind p (fun _ => q))
  (at level 61, right associativity) : prog_scope.
Local Open Scope prog_scope.

(** Reading and writing the two halves of the machine. *)
Definition this : Prog Service := Get (fun m => Ret (fst m)).
Definition host : Prog Host := Get (fun m => Ret (snd m)).
Definition assign (f : Service -> Service) : Prog unit :=
  Get (fun m => Put (f (fst m), snd m) (Ret tt)).
Definition perform (f : Host -> Host) : Prog unit :=
  Get (fun m => Put (fst m, f (snd m)) (Ret tt)).

(** [await p]: the value of a fulfilled promise, or its rejection thrown. *)
Definition await (w : Wait) : Prog handle :=
  Await w (fun o => match o with
                    | Fulfilled v => Ret v
                    | Rejected e => Throw e
                    end).

(** Dereference of a field that may be [null]. *)
Definition deref (o : option handle) : Prog handle :=
  match o with
  | Some x => Ret x
  | None => Throw TypeError
  end.

Definition when (b : bool) (p : Prog unit) : Prog unit :=
  if b then p else Ret tt.

(** ** Host calls *)

Definition console_log (msg : string) : Prog unit :=
  perform (emit (ConsoleLog msg)).
Definition console_warn (msg : string) (delay : Z) (retries : nat)
  : Prog unit :=
  perform (emit (ConsoleWarn msg delay retries)).
Definition console_error (msg : string) (e : Exn) : Prog unit :=
  perform (emit (ConsoleError msg e)).

(** The two callbacks of the caller.  They are taken to return normally and
    not to call back into the service, as the callbacks passed by
    VisualPlayer.tsx do. *)
Definition onAudioActivity (active : bool) : Prog unit :=
  perform (emit (OnAudioActivity active)).
Definition call_onError (e : Exn) : Prog unit :=
  perform (emit (OnError e)).

(** [new AudioContextClass({ sampleRate })]. *)
Definition new_AudioContext (rate : Z) : Prog handle :=
  h <- host ;;
  let c := length (contexts h) in
  perform (fun h => emit (NewAudioContext c rate)
             (set_contexts (contexts h ++ [mkCtx rate (autoplay h) 0%float]) h)) ;;
  Ret c.

Definition eq_state (a b : CtxState) : bool :=
  match a, b with
  | running, running | suspended, suspended | closed, closed => true
  | _, _ => false
  end.

(** [ctx.state]. *)
Definition state_of (c : handle) : Prog CtxState :=
  h <- host ;;
  Ret (match nth_error (contexts h) c with
       | Some x => state x
       | None => closed
       end).

(** [ctx.currentTime]. *)
Definition currentTime_of (c : handle) : Prog float :=
  h <- host ;;
  Ret (match nth_error (contexts h) c with
       | Some x => currentTime x
       | None => 0%float
       end).

(** [await ctx.resume()]. *)
Definition resume (c : handle) : Prog unit :=
  perform (emit (Resume c)) ;;
  await (W_resume c) ;;
  Ret tt.

(** [await navigator.mediaDevices.getUserMedia(...)]. *)
Definition getUserMedia : Prog handle :=
  perform (emit GetUserMedia) ;;
  await W_getUserMedia.

(** [await this.ai.live.connect({ model, callbacks, config })]: the host
    records the connection it was asked for, with the callbacks' closure
    (here: whether [onError] was given). *)
Definition live_connect (topic : string) (onError : bool) : Prog handle :=
  h <- host ;;
  let t := length (transports h) in
  perform (fun h => emit (LiveConnect t topic)
             (set_transports (transports h ++ [(onError, connecting)]) h)) ;;
  await (W_connect t).

(** [await new Promise(res => setTimeout(res, delay))]. *)
Definition sleep (delay : Z) : Prog unit :=
  perform (emit (SetTimeout delay)) ;;
  h <- host ;;
  await (W_timeout (clock h + delay)) ;;
  Ret tt.

(** [setTimeout(callback, delay)]. *)
Definition setTimeout (callback : Prog unit) (delay : Z) : Prog unit :=
  perform (emit (SetTimeout delay)) ;;
  Later delay callback (Ret tt).

(** [createMediaStreamSource] and [createScriptProcessor]: a new graph
    node, not yet connected. *)
Definition create_node : Prog handle :=
  h <- host ;;
  let n := length (nodes h) in
  perform (fun h => emit (CreateNode n) (set_nodes (nodes h ++ [false]) h)) ;;
  Ret n.

(** [node.connect(destination)]. *)
Definition connect_node (n : handle) : Prog unit :=
  perform (fun h => set_nodes (update n (fun _ => true) (nodes h)) h).

(** [node.disconnect()]. *)
Definition host_disconnect (n : handle) (h : Host) : Host :=
  emit (Disconnect n) (set_nodes (update n (fun _ => false) (nodes h)) h).
Definition disconnect (n : handle) : Prog unit :=
  perform (host_disconnect n).

(** [stream.getTracks().forEach(track => track.stop())]. *)
Definition host_stop_tracks (s : handle) (h : Host) : Host :=
  emit (TrackStop s) (set_streams (update s (fun _ => false) (streams h)) h).
Definition stop_tracks (s : handle) : Prog unit :=
  perform (host_stop_tracks s).

(** [ctx.close()]. *)
Definition host_close (c : handle) (h : Host) : Host :=
  emit (Close c) (set_contexts (update c (set_state closed) (contexts h)) h).
Definition close (c : handle) : Prog unit :=
  perform (host_close c).

(** [ctx.createBuffer(1, length, sampleRate)]: the host refuses an empty
    buffer.  The result is the buffer's [duration], the quotient of the
    length by the sample rate as a double. *)
Definition createBuffer (c : handle) (len : nat) (rate : Z) : Prog float :=
  match len with
  | O => Throw NotSupportedError
  | _ => Ret (of_int (Z.of_nat len) / of_int rate)%float
  end.

(** [source.start(when)] of a buffer source of context [c]. *)
Definition source_start (c : handle) (when duration : float) : Prog unit :=
  perform (emit (SourceStart c when duration)).

(** A value or an exception of a synchronous helper. *)
Definition lift {A : Type} (r : Res A) : Prog A :=
  match r with
  | Ok a => Ret a
  | Raise e => Throw e
  end.

(** ** The methods of the class *)

(** startAudioInput (lines 125-157).  The [onaudioprocess] handler that the
    method installs only sends frames to the endpoint; it writes no field
    and is left out. *)
Definition startAudioInput : Prog unit :=
  s <- this ;;
  match inputContext s, currentStream s, sessionPromise s with
  | Some _, Some _, Some _ =>
      src <- create_node ;;
      assign (set_inputSource (Some src)) ;;
      proc <- create_node ;;
      assign (set_processor (Some proc)) ;;
      connect_node src ;;
      connect_node proc
  | _, _, _ => Ret tt
  end.

(** playAudioChunk (lines 159-182). *)
Definition playAudioChunk (base64Audio : string) : Prog unit :=
  s <- this ;;
  match outputContext s with
  | None => Ret tt
  | Some oc =>
      st <- state_of oc ;;
      when (eq_state st suspended) (resume oc) ;;
      audioData <- lift (b64ToPcm base64Audio) ;;
      s <- this ;;
      oc <- deref (outputContext s) ;;
      duration <- createBuffer oc (length audioData) OUTPUT_SAMPLE_RATE ;;
      now <- currentTime_of oc ;;
      s <- this ;;
      when (nextStartTime s <? now)%float (assign (set_nextStartTime now)) ;;
      s <- this ;;
      source_start oc (nextStartTime s) duration ;;
      assign (fun s => set_nextStartTime (nextStartTime s + duration)%float s)
  end.

(** stopSession (lines 184-214). *)
Definition stopSession : Prog unit :=
  assign (set_isConnected false) ;;
  s <- this ;;
  match inputSource s with
  | Some n =>
      try_catch (disconnect n) (fun _ => Ret tt) ;;
      assign (set_inputSource None)
  | None => Ret tt
  end ;;
  s <- this ;;
  match processor s with
  | Some n =>
      try_catch (disconnect n) (fun _ => Ret tt) ;;
      assign (set_processor None)
  | None => Ret tt
  end ;;
  s <- this ;;
  match currentStream s with
  | Some st => stop_tracks st ;; assign (set_currentStream None)
  | None => Ret tt
  end ;;
  s <- this ;;
  match inputContext s with
  | Some c =>
      try_catch (close c) (fun _ => Ret tt) ;;
      assign (set_inputContext None)
  | None => Ret tt
  end ;;
  s <- this ;;
  match outputContext s with
  | Some c =>
      try_catch (close c) (fun _ => Ret tt) ;;
      assign (set_outputContext None)
  | None => Ret tt
  end ;;
  assign (set_nextStartTime 0%float).

(** The callbacks handed to [ai.live.connect] (lines 78-100). *)
Definition onopen : Prog unit :=
  console_log "Gemini Live Session Opened" ;;
  assign (set_isConnected true) ;;
  startAudioInput.

(** [message] is the value of
    [message.serverContent?.modelTurn?.parts?.[0]?.inlineData?.data]:
    [None] when the chain is undefined, otherwise the string. *)
Definition onmessage (message : option string) : Prog unit :=
  match message with
  | Some base64Audio =>
      if (String.length base64Audio =? 0)%nat then Ret tt
      else
        onAudioActivity true ;;
        playAudioChunk base64Audio ;;
        setTimeout (onAudioActivity false) 500
  | None => Ret tt
  end.

Definition onclose : Prog unit :=
  console_log "Gemini Live Session Closed" ;;
  assign (set_isConnected false).

Definition onerror (onError : bool) (err : Exn) : Prog unit :=
  console_error "Gemini Live Socket Error:" err ;;
  when onError (call_onError err).

(** connectWithRetry (lines 67-123). *)
Fixpoint connectWithRetry (topic : string) (onError : bool) (retries : nat)
    (delay : Z) : Prog handle :=
  try_catch (live_connect topic onError)
    (fun error =>
       match retries with
       | S r =>
           console_warn "Connection failed, retrying" delay retries ;;
           sleep delay ;;
           connectWithRetry topic onError r (delay * 2)
       | O => Throw error
       end).

(** startSession (lines 23-65).  The promise of [connectWithRetry] is
    stored in [sessionPromise] once the call has run up to its first
    [await]; that prefix reads and writes no field, so the field is written
    here before the call. *)
Definition startSession (topic : string) (onError : bool) : Prog unit :=
  s <- this ;;
  if isConnected s then Ret tt
  else
    try_catch
      (ic <- new_AudioContext INPUT_SAMPLE_RATE ;;
       assign (set_inputContext (Some ic)) ;;
       oc <- new_AudioContext OUTPUT_SAMPLE_RATE ;;
       assign (set_outputContext (Some oc)) ;;
       s <- this ;;
       ic <- deref (inputContext s) ;;
       st <- state_of ic ;;
       when (eq_state st suspended) (resume ic) ;;
       s <- this ;;
       oc <- deref (outputContext s) ;;
       st <- state_of oc ;;
       when (eq_state st suspended) (resume oc) ;;
       stream <- getUserMedia ;;
       assign (set_currentStream (Some stream)) ;;
       h <- host ;;
       perform (set_promises (S (promises h))) ;;
       assign (set_sessionPromise (Some (promises h))) ;;
       connectWithRetry topic onError 3 1000 ;;
       Ret tt)
      (fun error =>
         console_error "Failed to start live session after retries:" error ;;
         when onError (call_onError error) ;;
         stopSession).

(** ** Running programs *)

(** What is waiting in the event loop: an async function suspended at an
    [await], or a [setTimeout] callback with the time it is due. *)
Inductive Pending : Type :=
| Suspended (w : Wait) (k : Outcome -> Prog unit)
| Due (due : Z) (callback : Prog unit).

Inductive Status (A : Type) : Type :=
| Done (a : A)
| Failed (e : Exn)
| Blocked (w : Wait) (k : Outcome -> Prog A).
Arguments Done {A} a.
Arguments Failed {A} e.
Arguments Blocked {A} w k.

(** Runs a program up to its end or its next [await]. *)
Fixpoint exec {A : Type} (p : Prog A) (m : Machine) (q : list Pending)
  : Machine * list Pending * Status A :=
  match p with
  | Ret a => (m, q, Done a)
  | Throw e => (m, q, Failed e)
  | Get k => exec (k m) m q
  | Put m' k => exec k m' q
  | Await w k => (m, q, Blocked w k)
  | Later d cb k => exec k m (q ++ [Due (clock (snd m) + d) cb])
  end.

Record Sys : Type := mkSys {
  machine : Machine;
  pending : list Pending
}.

(** A task of the event loop: a method call or a callback, run up to its
    first suspension.  A rejection that reaches the top is not handled by
    anyone. *)
Definition task (p : Prog unit) (sys : Sys) : Sys :=
  match exec p (machine sys) (pending sys) with
  | (m, q, Done _) => mkSys m q
  | (m, q, Failed e) => mkSys (fst m, emit (Unhandled e) (snd m)) q
  | (m, q, Blocked w k) => mkSys m (q ++ [Suspended w k])
  end.

(** ** The event loop

    The environment decides what happens next: a call of one of the two
    public methods, the settlement of an awaited promise, a timer that is
    due, an event of a transport, the passing of time. *)

Inductive Event : Type :=
| E_startSession (topic : string) (onError : bool)
| E_stopSession
| E_settle (i : nat) (err : option Exn)   (* pending entry [i] is resumed *)
| E_open (t : handle)
| E_message (t : handle) (message : option string)
| E_close (t : handle)
| E_error (t : handle) (err : Exn)
| E_elapse (dt : Z)
| E_suspend (c : handle).

Fixpoint remove_nth {X : Type} (i : nat) (l : list X) : list X :=
  match l, i with
  | [], _ => []
  | _ :: r, O => r
  | x :: r, S j => x :: remove_nth j r
  end.

Definition with_host (f : Host -> Host) (sys : Sys) : Sys :=
  mkSys (fst (machine sys), f (snd (machine sys))) (pending sys).

Definition sys_host (sys : Sys) : Host := snd (machine sys).
Definition sys_this (sys : Sys) : Service := fst (machine sys).

Definition eq_tstate (a b : TransportState) : bool :=
  match a, b with
  | connecting, connecting | opened, opened | shut, shut
  | failed, failed => true
  | _, _ => false
  end.

Definition tstate (h : Host) (t : handle) : option TransportState :=
  option_map snd (nth_error (transports h) t).

Definition set_tstate (t : handle) (v : TransportState) (h : Host) : Host :=
  set_transports (update t (fun x => (fst x, v)) (transports h)) h.

(** The host resumes the function suspended on [w]: the value or the
    rejection it is resumed with and the host's own bookkeeping, or [None]
    when the host cannot settle [w] that way now. *)
Definition settle_wait (w : Wait) (err : option Exn) (h : Host)
  : option (Outcome * Host) :=
  match w, err with
  | W_timeout due, _ =>
      if due <=? clock h then Some (Fulfilled O, h) else None
  | W_resume c, None =>
      match nth_error (contexts h) c with
      | Some x =>
          if eq_state (state x) closed then None
          else Some (Fulfilled O,
                     set_contexts (update c (set_state running) (contexts h)) h)
      | None => None
      end
  | W_getUserMedia, None =>
      Some (Fulfilled (length (streams h)),
            set_streams (streams h ++ [true]) h)
  | W_connect t, None =>
      match tstate h t with
      | Some opened => Some (Fulfilled t, h)
      | _ => None
      end
  | W_connect t, Some e =>
      match tstate h t with
      | Some connecting => Some (Rejected e, set_tstate t failed h)
      | Some _ => Some (Rejected e, h)
      | None => None
      end
  | _, Some e => Some (Rejected e, h)
  end.

Definition advance (dt : Z) (c : AudioCtx) : AudioCtx :=
  if eq_state (state c) running
  then mkCtx (sampleRate c) (state c)
         (currentTime c + of_int dt / 1000)%float
  else c.

Definition step (sys : Sys) (ev : Event) : option Sys :=
  let h := sys_host sys in
  match ev with
  | E_startSession topic onError => Some (task (startSession topic onError) sys)
  | E_stopSession => Some (task stopSession sys)
  | E_settle i err =>
      let rest := remove_nth i (pending sys) in
      match nth_error (pending sys) i with
      | Some (Due due callback) =>
          if due <=? clock h
          then Some (task callback (mkSys (machine sys) rest))
          else None
      | Some (Suspended w k) =>
          match settle_wait w err h with
          | Some (o, h') => Some (task (k o) (mkSys (sys_this sys, h') rest))
          | None => None
          end
      | None => None
      end
  | E_open t =>
      match tstate h t with
      | Some connecting =>
          Some (task onopen (with_host (set_tstate t opened) sys))
      | _ => None
      end
  | E_message t message =>
      match tstate h t with
      | Some opened => Some (task (onmessage message) sys)
      | _ => None
      end
  | E_close t =>
      match tstate h t with
      | Some opened | Some connecting =>
          Some (task onclose (with_host (set_tstate t shut) sys))
      | _ => None
      end
  | E_error t err =>
      match nth_error (transports h) t with
      | Some (onError, _) => Some (task (onerror onError err) sys)
      | None => None
      end
  | E_elapse dt =>
      if 0 <=? dt
      then Some (with_host
                   (fun h => emit (Elapsed dt)
                      (set_clock (clock h + dt)
                         (set_contexts (map (advance dt) (contexts h)) h)))
                   sys)
      else None
  | E_suspend c =>
      match nth_error (contexts h) c with
      | Some x =>
          if eq_state (state x) running
          then Some (with_host
                       (fun h => set_contexts
                          (update c (set_state suspended) (contexts h)) h)
                       sys)
          else None
      | None => None
      end
  end.

Fixpoint run (sys : Sys) (evs : list Event) : option Sys :=
  match evs with
  | [] => Some sys
  | ev :: rest =>
      match step sys ev with
      | Some sys' => run sys' rest
      | None => None
      end
  end.

(** A fresh service in a fresh host. *)
Definition boot (policy : CtxState) : Sys :=
  mkSys (new_service, new_host policy) [].

(** ** One call run on its own

    [drive] runs one async call to its end with no other task in between:
    every [await] of the call is answered in turn by the host.  [None] is
    the host fulfilling the promise, [Some e] the host rejecting it with
    [e]. *)

(** What the host does when it answers: for a timer it lets the delay run
    out; for a connection it opens the transport and calls [onopen] before
    it resolves the promise. *)
Definition host_answer (w : Wait) (a : option Exn) (m : Machine)
    (q : list Pending) : Outcome * Machine * list Pending :=
  let h := snd m in
  match w, a with
  | W_timeout due, _ =>
      (Fulfilled O,
       (fst m, if clock h <? due
               then emit (Elapsed (due - clock h)) (set_clock due h)
               else h), q)
  | W_resume c, None =>
      (Fulfilled O,
       (fst m, set_contexts (update c (set_state running) (contexts h)) h), q)
  | W_getUserMedia, None =>
      (Fulfilled (length (streams h)),
       (fst m, set_streams (streams h ++ [true]) h), q)
  | W_connect t, None =>
      let '(m', q', _) := exec onopen (fst m, set_tstate t opened h) q in
      (Fulfilled t, m', q')
  | W_connect t, Some e => (Rejected e, (fst m, set_tstate t failed h), q)
  | _, Some e => (Rejected e, m, q)
  end.

Fixpoint drive {A : Type} (p : Prog A) (answers : list (option Exn))
    (m : Machine) (q : list Pending) : Machine * list Pending * Status A :=
  match p with
  | Ret a => (m, q, Done a)
  | Throw e => (m, q, Failed e)
  | Get k => drive (k m) answers m q
  | Put m' k => drive k answers m' q
  | Await w k =>
      match answers with
      | [] => (m, q, Blocked w k)
      | a :: rest =>
          let '(o, m', q') := host_answer w a m q in
          drive (k o) rest m' q'
      end
  | Later d cb k => drive k answers m (q ++ [Due (clock (snd m) + d) cb])
  end.

(** ** Observations on a trace and on the host *)

(** The buffer sources started, each with its start time and duration. *)
Definition sources (tr : list Effect) : list (float * float) :=
  flat_map (fun e => match e with
                     | SourceStart _ w d => [(w, d)]
                     | _ => []
                     end) tr.

(** The number of calls of [ai.live.connect]. *)
Definition attempts (tr : list Effect) : nat :=
  length (filter (fun e => match e with
                           | LiveConnect _ _ => true
                           | _ => false
                           end) tr).

(** The delays handed to [setTimeout], in order. *)
Definition delays (tr : list Effect) : list Z :=
  flat_map (fun e => match e with
                     | SetTimeout d => [d]
                     | _ => []
                     end) tr.

(** What the class wrote to the console. *)
Definition console (tr : list Effect) : list Effect :=
  filter (fun e => match e with
                   | ConsoleLog _ | ConsoleWarn _ _ _ | ConsoleError _ _ => true
                   | _ => false
                   end) tr.

(** The transports that are open. *)
Definition open_handles (h : Host) : nat :=
  length (filter (fun x => eq_tstate (snd x) opened) (transports h)).

(** Every audio context is closed, every track stopped, every node
    disconnected. *)
Definition released (h : Host) : bool :=
  forallb (fun c => eq_state (state c) closed) (contexts h)
  && forallb negb (streams h) && forallb negb (nodes h).

(** No field of the service holds a resource and no session is marked
    connected: the state of a new object, whatever [sessionPromise] is. *)
Definition idle (s : Service) : Prop :=
  inputContext s = None /\ outputContext s = None /\ inputSource s = None
  /\ processor s = None /\ currentStream s = None
  /\ nextStartTime s = 0%float /\ isConnected s = false.

(** [m] is the maximum of [a] and [b]: one of the two, and neither is
    above it. *)
Definition is_max (m a b : float) : Prop :=
  (a <=? m)%float = true /\ (b <=? m)%float = true /\ (m = a \/ m = b).

(** The scheduling rule in the words of the specification: each chunk, with
    the device time [now] at which it is enqueued and its duration [d],
    starts at [max(now, cursor)], and the cursor moves to that start plus
    [d], a sum of doubles. *)
Fixpoint follows_cursor (cursor : float) (chunks : list (float * float))
    (starts : list float) : Prop :=
  match chunks, starts with
  | [], [] => True
  | (now, d) :: chunks', start :: starts' =>
      is_max start now cursor
      /\ follows_cursor (start + d)%float chunks' starts'
  | _, _ => False
  end.

(** Each source starts no earlier than the double its predecessor's start
    plus duration rounds to, and no earlier than its predecessor starts. *)
Fixpoint back_to_back (l : list (float * float)) : Prop :=
  match l with
  | (s1, d1) :: (((s2, _) :: _) as r) =>
      (s1 + d1 <=? s2)%float = true /\ (s1 <=? s2)%float = true
      /\ back_to_back r
  | _ => True
  end.

(** The decay rule in the words of the specification: the activity callback
    is called with [false] only when 500 ms have passed since the last call
    with [true].  [quiet] is the time since that call. *)
Fixpoint decay_respected (quiet : option Z) (tr : list Effect) : bool :=
  match tr with
  | [] => true
  | OnAudioActivity true :: r => decay_respected (Some 0) r
  | OnAudioActivity false :: r =>
      match quiet with
      | Some z => (500 <=? z) && decay_respected quiet r
      | None => decay_respected quiet r
      end
  | Elapsed dt :: r => decay_respected (option_map (Z.add dt) quiet) r
  | _ :: r => decay_respected quiet r
  end.

(** ** What [stopSession] amounts to *)

(** The fields after [stopSession]: [sessionPromise] is the one field the
    method does not write. *)
Definition stopped (s : Service) : Service :=
  mkService None None None None None 0%float false (sessionPromise s).

Definition for_handle (o : option handle) (f : handle -> Host -> Host)
    (h : Host) : Host :=
  match o with
  | Some x => f x h
  | None => h
  end.

(** The host after [stopSession], for the resources the fields hold. *)
Definition teardown (s : Service) (h : Host) : Host :=
  for_handle (outputContext s) host_close
    (for_handle (inputContext s) host_close
       (for_handle (currentStream s) host_stop_tracks
          (for_handle (processor s) host_disconnect
             (for_handle (inputSource s) host_disconnect h)))).

(** The answers of the host to the [resume] calls of [startSession]: two
    when new contexts start suspended, none otherwise. *)
Definition resumes (h : Host) : list (option Exn) :=
  if eq_state (autoplay h) suspended then [None; None] else [].

Definition range_ok (x : Q) : Prop := (-1 <= x <= 1)%Q.

(** ** Chunks arriving one after the other *)

(** The start time [playAudioChunk] gives a chunk (lines 176-180) and the
    [duration] of a buffer of [samples] samples. *)
Definition start_at (cursor now : float) : float :=
  if (cursor <? now)%float then now else cursor.

Definition duration_of (samples : nat) : float :=
  (of_int (Z.of_nat samples) / of_int OUTPUT_SAMPLE_RATE)%float.

Definition samples_of (base64Audio : string) : nat :=
  match b64ToPcm base64Audio with
  | Ok l => length l
  | Raise _ => O
  end.

(** An arrival is a chunk with the time, in milliseconds, that passed
    since the arrival before it. *)
Definition arrival_events (t : handle) (arrivals : list (Z * string))
  : list Event :=
  flat_map (fun a => [E_elapse (fst a); E_message t (Some (snd a))]) arrivals.

(** The device time at which each chunk is enqueued, and its duration. *)
Fixpoint timeline (now : float) (arrivals : list (Z * string))
  : list (float * float) :=
  match arrivals with
  | [] => []
  | a :: rest =>
      let now' := (now + of_int (fst a) / 1000)%float in
      (now', duration_of (samples_of (snd a))) :: timeline now' rest
  end.

(** The cursor after the chunks of a timeline, by the rule of lines
    176-181. *)
Fixpoint cursor_after (cursor : float) (chunks : list (float * float))
  : float :=
  match chunks with
  | [] => cursor
  | (now, d) :: rest => cursor_after (start_at cursor now + d)%float rest
  end.

(** The chunk decodes to at least one sample. *)
Definition playable (a : Z * string) : Prop :=
  0 <= fst a /\ exists x l, b64ToPcm (snd a) = Ok (x :: l).

(** ** The retry policy in the words of the specification *)

(** The delays of [retries] retries that start at [delay] and double. *)
Fixpoint backoff (retries : nat) (delay : Z) : list Z :=
  match retries with
  | O => []
  | S r => delay :: backoff r (delay * 2)
  end.

(** The stretches of time that passed, in order. *)
Definition waited (tr : list Effect) : list Z :=
  flat_map (fun e => match e with
                     | Elapsed dt => [dt]
                     | _ => []
                     end) tr.

(** The calls of the caller's [onError]. *)
Definition errors_reported (tr : list Effect) : list Exn :=
  flat_map (fun e => match e with
                     | OnError x => [x]
                     | _ => []
                     end) tr.

(** ** What a call of [startSession] acquires *)

Definition ctx_state_at (h : Host) (c : handle) : option CtxState :=
  option_map state (nth_error (contexts h) c).

(** The effects of [startSession] up to its request for the microphone:
    the two contexts are created, and resumed when they start suspended. *)
Definition acquisition (h : Host) : list Effect :=
  let c0 := length (contexts h) in
  [NewAudioContext c0 INPUT_SAMPLE_RATE;
   NewAudioContext (S c0) OUTPUT_SAMPLE_RATE]
    ++ (if eq_state (autoplay h) suspended
        then [Resume c0; Resume (S c0)] else [])
    ++ [GetUserMedia].

(** The effects of four failed connection attempts. *)
Definition exhaustion (h : Host) (topic : string) : list Effect :=
  let t0 := length (transports h) in
  [LiveConnect t0 topic;
   ConsoleWarn "Connection failed, retrying" 1000 3;
   SetTimeout 1000; Elapsed 1000;
   LiveConnect (S t0) topic;
   ConsoleWarn "Connection failed, retrying" 2000 2;
   SetTimeout 2000; Elapsed 2000;
   LiveConnect (S (S t0)) topic;
   ConsoleWarn "Connection failed, retrying" 4000 1;
   SetTimeout 4000; Elapsed 4000;
   LiveConnect (S (S (S t0))) topic].

(** What the [catch] block of [startSession] does before [stopSession]. *)
Definition report (onError : bool) (e : Exn) : list Effect :=
  ConsoleError "Failed to start live session after retries:" e
    :: (if onError then [OnError e] else []).

(** The trace in the result of [exec] or [drive]. *)
Definition trace_of {A : Type} (r : Machine * list Pending * Status A)
  : list Effect :=
  trace (snd (fst (fst r))).

(** ** Rules of the specification, as checks on a trace *)

(** The rollback rule in the words of the specification: whenever the
    caller's [onError] is called, every audio context created so far has
    been closed.  [held] counts the contexts created and not yet closed. *)
Fixpoint rolled_back_at_report (held : nat) (tr : list Effect) : bool :=
  match tr with
  | [] => true
  | NewAudioContext _ _ :: r => rolled_back_at_report (S held) r
  | Close _ :: r => rolled_back_at_report (pred held) r
  | OnError _ :: r => (held =? 0)%nat && rolled_back_at_report held r
  | _ :: r => rolled_back_at_report held r
  end.

(** ** A session that is open

    The system after [startSession] on a fresh service, with the
    microphone granted and the first connection opened. *)
Definition open_script : list Event :=
  [E_startSession "Photosynthesis" true; E_settle 0 None; E_open 0;
   E_settle 0 None].

Definition session_open : Sys :=
  match run (boot running) open_script with
  | Some sys => sys
  | None => boot running
  end.

(** A call of [startSession] can succeed from this state: with the
    microphone granted and the first connection opened, the call ends with
    the service connected and holding its resources, and [onError] is not
    called. *)
Definition restartable (s : Service) (h : Host) (q : list Pending) : Prop :=
  forall topic onError,
  exists s' h' fx,
    drive (startSession topic onError) (resumes h ++ [None; None]) (s, h) q
    = ((s', h'), q, Done tt)
    /\ isConnected s' = true
    /\ inputContext s' <> None /\ outputContext s' <> None
    /\ currentStream s' <> None
    /\ inputSource s' <> None /\ processor s' <> None
    /\ trace h' = trace h ++ fx
    /\ errors_reported fx = [].

(** The trace after a run of the event loop, when every event of the run
    can happen. *)
Definition trace_after (sys : Sys) (evs : list Event) : option (list Effect) :=
  option_map (fun sys' => trace (sys_host sys')) (run sys evs).

(** ** A host that refuses every connection

    The answers to a call of [connectWithRetry] whose attempts all fail:
    each refusal but the last is followed by the delay running out. *)
Definition refusals (errors : list Exn) (last : Exn) : list (option Exn) :=
  flat_map (fun e => [Some e; None]) errors ++ [Some last].

End Live.

(* ================================================================== *)
(** * Part 3: proofs *)
(* ================================================================== *)

Import Codec Number Live.
Local Open Scope prog_scope.
(** * Facts about the codec *)

Ltac euclid := Z.to_euclidean_division_equations; lia.

Section Base64.

Lemma all_sextets_spec (P : Z -> bool) :
  all_sextets P = true -> forall n, sextet n -> P n = true.
Proof.
  unfold all_sextets, sextet. intros H n Hn.
  rewrite forallb_forall in H. apply H.
  apply in_map_iff. exists (Z.to_nat n). split; [lia|].
  apply in_seq. lia.
Qed.

Lemma b64val_b64char n : sextet n -> b64val (b64char n) = Some n.
Proof.
  intros Hn.
  pose proof (all_sextets_spec
    (fun n => match b64val (b64char n) with
              | Some m => m =? n
              | None => false
              end) eq_refl n Hn) as H.
  cbv beta in H. destruct (b64val (b64char n)); [|discriminate].
  apply Z.eqb_eq in H. now subst.
Qed.

Lemma b64char_not_ws n : sextet n -> is_ws (b64char n) = false.
Proof.
  intros Hn.
  pose proof (all_sextets_spec (fun n => negb (is_ws (b64char n)))
                eq_refl n Hn) as H.
  now apply negb_true_iff in H.
Qed.

Lemma b64char_not_pad n : sextet n -> is_pad (b64char n) = false.
Proof.
  intros Hn.
  pose proof (all_sextets_spec (fun n => negb (is_pad (b64char n)))
                eq_refl n Hn) as H.
  now apply negb_true_iff in H.
Qed.

(** Induction three bytes at a time. *)
Lemma list_ind3 {X : Type} (P : list X -> Prop) :
  P [] -> (forall a, P [a]) -> (forall a b, P [a; b]) ->
  (forall a b c r, P r -> P (a :: b :: c :: r)) ->
  forall l, P l.
Proof.
  intros H0 H1 H2 H3.
  assert (H : forall l, P l /\ (forall a, P (a :: l))
                        /\ (forall a b, P (a :: b :: l))).
  { induction l as [|x l (IH0 & IH1 & IH2)]; repeat split; auto. }
  intros l. apply H.
Qed.


Lemma enc_sextets_range bs :
  Forall octet bs -> Forall sextet (enc_sextets bs).
Proof.
  unfold octet, sextet.
  induction bs as [|a|a b|a b c r IH] using list_ind3; intros H; simpl.
  - constructor.
  - inversion_clear H. repeat constructor; euclid.
  - inversion_clear H as [|? ? Ha H']. inversion_clear H'.
    repeat constructor; euclid.
  - inversion_clear H as [|? ? Ha H']. inversion_clear H' as [|? ? Hb H''].
    inversion_clear H'' as [|? ? Hc Hr].
    repeat (constructor; [euclid|]). now apply IH.
Qed.

Lemma dec_enc_sextets bs :
  Forall octet bs -> dec_sextets (enc_sextets bs) = bs.
Proof.
  unfold octet.
  induction bs as [|a|a b|a b c r IH] using list_ind3; intros H; simpl.
  - reflexivity.
  - inversion_clear H. f_equal. euclid.
  - inversion_clear H as [|? ? Ha H']. inversion_clear H'.
    f_equal; [euclid|]. f_equal. euclid.
  - inversion_clear H as [|? ? Ha H']. inversion_clear H' as [|? ? Hb H''].
    inversion_clear H'' as [|? ? Hc Hr].
    rewrite (IH Hr). f_equal; [euclid|]. f_equal; [euclid|]. f_equal. euclid.
Qed.

(** The encoded text, padding included, is a whole number of quadruples;
    without the padding its length is never one more than such a number. *)
Lemma enc_sextets_length bs :
  (Nat.modulo (length (enc_sextets bs) + npad (length bs)) 4 = 0
   /\ Nat.modulo (length (enc_sextets bs)) 4 <> 1)%nat.
Proof.
  induction bs as [|a|a b|a b c r IH] using list_ind3.
  - split; [reflexivity|discriminate].
  - split; [reflexivity|discriminate].
  - split; [reflexivity|discriminate].
  - cbn [enc_sextets length].
    replace (npad (S (S (S (length r))))) with (npad (length r)).
    2:{ unfold npad. replace (S (S (S (length r)))) with (length r + 1 * 3)%nat by lia.
        now rewrite Nat.Div0.mod_add. }
    destruct IH as [IH1 IH2]. split.
    + replace (S (S (S (S (length (enc_sextets r)))))
               + npad (length r))%nat
        with ((length (enc_sextets r) + npad (length r)) + 1 * 4)%nat by lia.
      now rewrite Nat.Div0.mod_add.
    + replace (S (S (S (S (length (enc_sextets r))))))
        with (length (enc_sextets r) + 1 * 4)%nat by lia.
      now rewrite Nat.Div0.mod_add.
Qed.

Lemma npad_le n : (npad n <= 2)%nat.
Proof. unfold npad. destruct (Nat.modulo n 3) as [|[|[|?]]]; lia. Qed.

Lemma strip_padding_app cs k :
  Forall (fun c => is_pad c = false) cs -> (k <= 2)%nat ->
  strip_padding (cs ++ repeat pad_char k) = cs.
Proof.
  intros Hcs Hk. unfold strip_padding.
  rewrite rev_app_distr, rev_repeat.
  assert (Hrev : Forall (fun c => is_pad c = false) (rev cs))
    by now apply Forall_rev.
  assert (E : cs = rev (rev cs)) by (symmetry; apply rev_involutive).
  set (rc := rev cs) in *. clearbody rc. subst cs. clear Hcs.
  destruct k as [|[|[|k]]]; [| | |lia]; cbn [repeat app].
  - destruct rc as [|p1 [|p2 r]]; [reflexivity| |];
      inversion_clear Hrev as [|? ? Hp _]; rewrite Hp; apply app_nil_r.
  - change (is_pad pad_char) with true.
    destruct rc as [|p2 r]; [reflexivity|].
    inversion_clear Hrev as [|? ? Hp _]. now rewrite Hp.
  - change (is_pad pad_char) with true. reflexivity.
Qed.

Lemma sextets_map vs :
  Forall sextet vs -> sextets (map b64char vs) = Some vs.
Proof.
  induction 1 as [|v vs Hv _ IH]; simpl; [reflexivity|].
  now rewrite (b64val_b64char v Hv), IH.
Qed.

Lemma filter_id {X} (f : X -> bool) l :
  Forall (fun x => f x = true) l -> filter f l = l.
Proof.
  induction 1 as [|x l Hx _ IH]; simpl; [reflexivity|].
  now rewrite Hx, IH.
Qed.

Lemma forallb_latin1 bs : Forall octet bs -> forallb is_latin1 bs = true.
Proof.
  intros H. apply forallb_forall. rewrite Forall_forall in H.
  intros x Hx. specialize (H x Hx). unfold octet in H. unfold is_latin1.
  apply andb_true_iff. split; lia.
Qed.

(** [atob] undoes [btoa] on every binary string. *)
Lemma atob_btoa bs :
  Forall octet bs ->
  exists text, btoa bs = Ok text /\ atob text = Ok bs.
Proof.
  intros Hbs. unfold btoa. rewrite (forallb_latin1 bs Hbs).
  eexists. split; [reflexivity|].
  unfold atob. rewrite list_ascii_of_string_of_list_ascii.
  pose proof (enc_sextets_range bs Hbs) as Hr.
  pose proof (enc_sextets_length bs) as [Hl1 Hl2].
  set (cs := map b64char (enc_sextets bs)) in *.
  assert (Hpad : Forall (fun c => is_pad c = false) cs).
  { unfold cs. apply Forall_map. revert Hr. apply Forall_impl.
    intros. now apply b64char_not_pad. }
  assert (Hws : Forall (fun c => negb (is_ws c) = true)
                  (cs ++ repeat pad_char (npad (length bs)))).
  { apply Forall_app. split.
    - unfold cs. apply Forall_map. revert Hr. apply Forall_impl.
      intros a Ha. now rewrite (b64char_not_ws a Ha).
    - apply Forall_forall. intros x Hx. apply repeat_spec in Hx. now subst. }
  rewrite (filter_id _ _ Hws). cbv zeta.
  assert (Hlen : length cs = length (enc_sextets bs)) by apply length_map.
  rewrite length_app, repeat_length, Hlen, Hl1. cbn [Nat.eqb].
  rewrite (strip_padding_app cs _ Hpad (npad_le _)), Hlen.
  destruct (Nat.eqb_spec (Nat.modulo (length (enc_sextets bs)) 4) 1);
    [contradiction|].
  unfold cs. rewrite (sextets_map _ Hr).
  now rewrite (dec_enc_sextets bs Hbs).
Qed.

End Base64.

Section Int16.

Lemma signed16_mod_range t : int16 (signed16 (t mod 65536)).
Proof.
  unfold int16, signed16.
  destruct (Z.leb_spec 32768 (t mod 65536)); euclid.
Qed.

Lemma signed16_mod_id t : int16 t -> signed16 (t mod 65536) = t.
Proof.
  unfold int16, signed16. intros H.
  destruct (Z.leb_spec 32768 (t mod 65536)); euclid.
Qed.

Lemma ToInt16_range q : int16 (ToInt16 q).
Proof. apply signed16_mod_range. Qed.

Lemma int16_bytes_octets v : Forall octet (int16_bytes v).
Proof. unfold int16_bytes, octet. repeat constructor; euclid. Qed.

Lemma bytes_of_int16s_octets l : Forall octet (bytes_of_int16s l).
Proof.
  induction l as [|v l IH]; [constructor|].
  unfold bytes_of_int16s. cbn [flat_map]. apply Forall_app.
  split; [apply int16_bytes_octets|exact IH].
Qed.

Lemma bytes_of_int16s_even l : Nat.even (length (bytes_of_int16s l)) = true.
Proof. induction l as [|v l IH]; [reflexivity|exact IH]. Qed.

Lemma int16s_of_bytes_of_int16s l :
  Forall int16 l -> int16s_of_bytes (bytes_of_int16s l) = l.
Proof.
  induction 1 as [|v l Hv _ IH]; [reflexivity|].
  unfold bytes_of_int16s in *. cbn [flat_map int16_bytes app int16s_of_bytes].
  rewrite IH. f_equal.
  unfold int16 in Hv. unfold signed16.
  destruct (Z.leb_spec 32768
              ((v mod 65536) mod 256 + 256 * ((v mod 65536) / 256))); euclid.
Qed.

Lemma map_mod_octets bs :
  Forall octet bs -> map (fun c => c mod 256) bs = bs.
Proof.
  induction 1 as [|b bs Hb _ IH]; [reflexivity|].
  cbn [map]. rewrite IH. f_equal. unfold octet in Hb. euclid.
Qed.

(** [b64ToPcm] after [pcmToB64], on every sample sequence. *)
Lemma b64ToPcm_pcmToB64 (s : list Q) :
  exists text,
    pcmToB64 s = Ok text /\ b64ToPcm text = Ok (map requantize s).
Proof.
  unfold pcmToB64.
  destruct (atob_btoa (bytes_of_int16s (map quantize s))
              (bytes_of_int16s_octets _)) as (text & Hb & Ha).
  exists text. split; [exact Hb|].
  unfold b64ToPcm. rewrite Ha.
  rewrite (map_mod_octets _ (bytes_of_int16s_octets _)).
  unfold Int16Array_of_buffer. rewrite bytes_of_int16s_even.
  rewrite int16s_of_bytes_of_int16s.
  - now rewrite map_map.
  - apply Forall_map, Forall_forall. intros x _. apply ToInt16_range.
Qed.

End Int16.

Section Quantization.

Local Open Scope Q_scope.

Lemma Qltb_spec x y : reflect (x < y) (Qltb x y).
Proof.
  unfold Qltb. destruct (Qle_bool y x) eqn:E; constructor.
  - apply Qle_bool_iff in E. now apply Qle_not_lt.
  - apply Qnot_le_lt. intros H. apply Qle_bool_iff in H. congruence.
Qed.

Lemma clamp_id x : -1 <= x <= 1 -> clamp x == x.
Proof.
  intros [Hl Hu]. unfold clamp.
  destruct (Qltb_spec x 1) as [H1|H1].
  - destruct (Qltb_spec x (-1)) as [H2|H2]; [lra|reflexivity].
  - destruct (Qltb_spec 1 (-1)) as [H2|H2]; lra.
Qed.

Lemma Qtrunc_nonneg q : 0 <= q -> Qtrunc q = Qfloor q.
Proof.
  destruct q as [n d]. unfold Qle, Qtrunc, Qfloor. cbn. intros H.
  apply Z.quot_div_nonneg; lia.
Qed.

Lemma Qtrunc_nonpos q : q <= 0 -> Qtrunc q = Qceiling q.
Proof.
  destruct q as [n d]. unfold Qle, Qtrunc, Qceiling, Qfloor. cbn. intros H.
  rewrite <- (Z.opp_involutive n) at 1.
  rewrite Z.quot_opp_l by lia. f_equal.
  apply Z.quot_div_nonneg; lia.
Qed.

(** A negative sample is scaled by 32768 and rounded up. *)
Lemma quantize_neg x :
  -1 <= x < 0 -> quantize x = Qceiling (x * 32768).
Proof.
  intros [Hl Hu]. unfold quantize.
  pose proof (clamp_id x) as Hc. 
  assert (Hs : clamp x == x) by (apply Hc; lra). clear Hc.
  destruct (Qltb_spec (clamp x) 0) as [H|H]; [|lra].
  unfold ToInt16. rewrite Qtrunc_nonpos by lra.
  rewrite (Qceiling_comp _ (x * 32768)) by now rewrite Hs.
  apply signed16_mod_id. unfold int16.
  assert (H1 : (Qceiling (inject_Z (-32768)) <= Qceiling (x * 32768))%Z).
  { apply Qceiling_resp_le. change (inject_Z (-32768)) with (-32768). lra. }
  assert (H2 : (Qceiling (x * 32768) <= Qceiling (inject_Z 0))%Z).
  { apply Qceiling_resp_le. change (inject_Z 0) with 0. lra. }
  rewrite Qceiling_Z in H1, H2. lia.
Qed.

(** A non-negative sample is scaled by 32767 and rounded down. *)
Lemma quantize_nonneg x :
  0 <= x <= 1 -> quantize x = Qfloor (x * 32767).
Proof.
  intros [Hl Hu]. unfold quantize.
  assert (Hs : clamp x == x) by (apply clamp_id; lra).
  destruct (Qltb_spec (clamp x) 0) as [H|H]; [lra|].
  unfold ToInt16. rewrite Qtrunc_nonneg by lra.
  rewrite (Qfloor_comp _ (x * 32767)) by now rewrite Hs.
  apply signed16_mod_id. unfold int16.
  assert (H1 : (Qfloor (inject_Z 0) <= Qfloor (x * 32767))%Z).
  { apply Qfloor_resp_le. change (inject_Z 0) with 0. lra. }
  assert (H2 : (Qfloor (x * 32767) <= Qfloor (inject_Z 32767))%Z).
  { apply Qfloor_resp_le. change (inject_Z 32767) with 32767. lra. }
  rewrite Qfloor_Z in H1, H2. lia.
Qed.

Lemma requantize_neg_error x :
  -1 <= x < 0 -> 0 <= requantize x - x < 1 # 32768.
Proof.
  intros Hx. unfold requantize. rewrite (quantize_neg x Hx).
  pose proof (Qle_ceiling (x * 32768)) as H1.
  pose proof (Qceiling_lt (x * 32768)) as H2.
  unfold Zminus in H2. rewrite inject_Z_plus in H2.
  change (inject_Z (Z.opp 1)) with (-1 # 1) in H2.
  set (t := inject_Z (Qceiling (x * 32768))) in *. clearbody t.
  unfold Qdiv. change (/ 32768) with (1 # 32768).
  split; lra.
Qed.

Lemma requantize_nonneg_error x :
  0 <= x <= 1 -> 0 <= x - requantize x < 2 # 32768.
Proof.
  intros Hx. unfold requantize. rewrite (quantize_nonneg x Hx).
  pose proof (Qfloor_le (x * 32767)) as H1.
  pose proof (Qlt_floor (x * 32767)) as H2.
  rewrite inject_Z_plus in H2. change (inject_Z 1) with 1 in H2.
  set (t := inject_Z (Qfloor (x * 32767))) in *. clearbody t.
  unfold Qdiv. change (/ 32768) with (1 # 32768).
  split; lra.
Qed.

Lemma requantize_error x :
  -1 <= x <= 1 -> Qabs (requantize x - x) < 2 # 32768.
Proof.
  intros [Hl Hu]. apply Qabs_Qlt_condition.
  destruct (Qlt_le_dec x 0) as [H|H].
  - pose proof (requantize_neg_error x (conj Hl H)). lra.
  - pose proof (requantize_nonneg_error x (conj H Hu)). lra.
Qed.

End Quantization.

(* ================================================================== *)
(** * Numbers: the order of doubles that are not negative *)
(* ================================================================== *)

Section Digits.

(** The number of binary digits of a mantissa. *)
Lemma digits2_pos_bounds m :
  2 ^ (Zpos (digits2_pos m) - 1) <= Zpos m < 2 ^ Zpos (digits2_pos m).
Proof.
  induction m as [m IH|m IH|]; cbn [digits2_pos].
  - rewrite Pos2Z.inj_succ.
    replace (Z.succ (Zpos (digits2_pos m)) - 1)
      with (Z.succ (Zpos (digits2_pos m) - 1)) by lia.
    rewrite !Z.pow_succ_r by lia. lia.
  - rewrite Pos2Z.inj_succ.
    replace (Z.succ (Zpos (digits2_pos m)) - 1)
      with (Z.succ (Zpos (digits2_pos m) - 1)) by lia.
    rewrite !Z.pow_succ_r by lia. lia.
  - cbn. lia.
Qed.

Lemma digits2_pos_le_shift m1 m2 k :
  0 <= k -> Zpos m1 * 2 ^ k <= Zpos m2 ->
  Zpos (digits2_pos m1) + k <= Zpos (digits2_pos m2).
Proof.
  intros Hk H.
  pose proof (digits2_pos_bounds m1) as [H1 _].
  pose proof (digits2_pos_bounds m2) as [_ H2].
  assert (Hp : 2 ^ (Zpos (digits2_pos m1) - 1 + k) < 2 ^ Zpos (digits2_pos m2)).
  { rewrite Z.pow_add_r by lia. nia. }
  apply Z.pow_lt_mono_r_iff in Hp; lia.
Qed.

Lemma iter_xO m d : Zpos (Pos.iter xO m d) = Zpos m * 2 ^ Zpos d.
Proof.
  induction d as [|d IH] using Pos.peano_ind.
  - cbn. lia.
  - rewrite Pos.iter_succ, Pos2Z.inj_xO, IH, Pos2Z.inj_succ.
    rewrite Z.pow_succ_r by lia. lia.
Qed.

Lemma shl_align_value mx ex ez :
  ez <= ex ->
  Zpos (fst (shl_align mx ex ez)) = Zpos mx * 2 ^ (ex - ez).
Proof.
  intros H. unfold shl_align.
  destruct (ez - ex) as [|p|p] eqn:E.
  - replace (ex - ez) with 0 by lia. cbn [fst]. lia.
  - lia.
  - cbn [fst]. rewrite iter_xO. f_equal. f_equal. lia.
Qed.

End Digits.

Section Shift.

Lemma shr_1_value mrs :
  0 <= shr_m mrs -> shr_m (shr_1 mrs) = shr_m mrs / 2.
Proof.
  destruct mrs as [m r s]. cbn [shr_m]. intros H.
  destruct m as [|[p|p|]|p]; cbn [shr_1 shr_m].
  - reflexivity.
  - rewrite Pos2Z.inj_xI.
    apply Z.div_unique with (r := 1); lia.
  - rewrite Pos2Z.inj_xO.
    apply Z.div_unique with (r := 0); lia.
  - reflexivity.
  - lia.
Qed.

Lemma iter_shr_1_value p : forall mrs,
  0 <= shr_m mrs ->
  shr_m (iter_pos shr_1 p mrs) = shr_m mrs / 2 ^ Zpos p.
Proof.
  assert (Hpos : forall mrs, 0 <= shr_m mrs -> 0 <= shr_m (shr_1 mrs)).
  { intros mrs H. rewrite shr_1_value by exact H.
    apply Z.div_pos; lia. }
  induction p as [p IH|p IH|]; intros mrs H; cbn [iter_pos].
  - assert (H1 := Hpos mrs H).
    assert (H2 : 0 <= shr_m (iter_pos shr_1 p (shr_1 mrs))).
    { rewrite IH by exact H1. apply Z.div_pos; [exact H1|].
      apply Z.pow_pos_nonneg; lia. }
    rewrite IH by exact H2. rewrite IH by exact H1.
    rewrite shr_1_value by exact H.
    assert (Hp : 0 < 2 ^ Zpos p) by (apply Z.pow_pos_nonneg; lia).
    rewrite !Z.div_div by lia.
    replace (2 ^ Z.pos p~1) with (2 * (2 ^ Z.pos p * 2 ^ Z.pos p));
      [reflexivity|].
    replace (Z.pos p~1) with (1 + (Z.pos p + Z.pos p)) by lia.
    rewrite !Z.pow_add_r by lia. reflexivity.
  - assert (H2 : 0 <= shr_m (iter_pos shr_1 p mrs)).
    { rewrite IH by exact H. apply Z.div_pos; [exact H|].
      apply Z.pow_pos_nonneg; lia. }
    rewrite IH by exact H2. rewrite IH by exact H.
    assert (Hp : 0 < 2 ^ Zpos p) by (apply Z.pow_pos_nonneg; lia).
    rewrite Z.div_div by lia.
    replace (2 ^ Z.pos p~0) with (2 ^ Z.pos p * 2 ^ Z.pos p);
      [reflexivity|].
    replace (Z.pos p~0) with (Z.pos p + Z.pos p) by lia.
    rewrite !Z.pow_add_r by lia. reflexivity.
  - rewrite shr_1_value by exact H. reflexivity.
Qed.

(** A shift to the right by [n] places divides the mantissa by [2 ^ n];
    nothing happens when [n] is not positive. *)
Lemma shr_value mrs e n :
  0 <= shr_m mrs ->
  shr_m (fst (shr mrs e n)) = shr_m mrs / 2 ^ Z.max 0 n
  /\ snd (shr mrs e n) = e + Z.max 0 n.
Proof.
  intros H. unfold shr. destruct n as [|p|p]; cbn [fst snd].
  - cbn. rewrite Z.div_1_r. lia.
  - rewrite iter_shr_1_value by exact H.
    replace (Z.max 0 (Zpos p)) with (Zpos p) by lia. auto.
  - replace (Z.max 0 (Zneg p)) with 0 by lia. cbn. rewrite Z.div_1_r. lia.
Qed.

Lemma shr_record_of_loc_m m l : shr_m (shr_record_of_loc m l) = m.
Proof. destruct l as [|[| |]]; reflexivity. Qed.

Lemma round_nearest_even_ge m l : m <= round_nearest_even m l.
Proof.
  unfold round_nearest_even. destruct l as [|[| |]]; try lia.
  destruct (Z.even m); lia.
Qed.

End Shift.

Section Rounding.

Lemma fexp_spec e : fexp prec emax e = Z.max (e - 53) (-1074).
Proof. reflexivity. Qed.

(** What [binary_round_aux] makes of a mantissa that is not negative: the
    mantissa is shifted to its exponent, rounded up or not at all, and
    shifted once more when the rounding carried. *)
Lemma binary_round_aux_cases mx ex lx :
  0 <= mx ->
  let n1 := Z.max 0 (fexp prec emax (Zdigits2 mx + ex) - ex) in
  exists m2,
    mx / 2 ^ n1 <= m2
    /\ let n2 := Z.max 0 (fexp prec emax (Zdigits2 m2 + (ex + n1))
                          - (ex + n1)) in
       binary_round_aux prec emax false mx ex lx =
       match m2 / 2 ^ n2 with
       | Z0 => S754_zero false
       | Zpos m =>
           if ex + n1 + n2 <=? emax - prec
           then S754_finite false m (ex + n1 + n2)
           else S754_infinity false
       | Zneg _ => S754_nan
       end.
Proof.
  intros Hmx n1. unfold binary_round_aux, shr_fexp.
  pose proof (shr_value (shr_record_of_loc mx lx) ex
                (fexp prec emax (Zdigits2 mx + ex) - ex)) as H1.
  rewrite shr_record_of_loc_m in H1. specialize (H1 Hmx).
  destruct (shr (shr_record_of_loc mx lx) ex
              (fexp prec emax (Zdigits2 mx + ex) - ex)) as [mrs1 e1].
  cbn [fst snd] in H1. destruct H1 as [Hm1 He1]. fold n1 in Hm1, He1.
  set (m2 := round_nearest_even (shr_m mrs1) (loc_of_shr_record mrs1)).
  assert (Hge : shr_m mrs1 <= m2) by apply round_nearest_even_ge.
  assert (H0 : 0 <= shr_m mrs1).
  { rewrite Hm1. apply Z.div_pos; [exact Hmx|].
    apply Z.pow_pos_nonneg; lia. }
  exists m2. split; [now rewrite <- Hm1|].
  pose proof (shr_value (shr_record_of_loc m2 loc_Exact) e1
                (fexp prec emax (Zdigits2 m2 + e1) - e1)) as H2.
  rewrite shr_record_of_loc_m in H2.
  specialize (H2 ltac:(lia)).
  destruct (shr (shr_record_of_loc m2 loc_Exact) e1
              (fexp prec emax (Zdigits2 m2 + e1) - e1)) as [mrs2 e2].
  cbn [fst snd] in H2. destruct H2 as [Hm2 He2].
  subst e1. rewrite Hm2, He2. reflexivity.
Qed.

(** (A) Rounding keeps the sign. *)
Lemma binary_round_aux_nonneg mx ex lx :
  0 <= mx -> SFnonneg (binary_round_aux prec emax false mx ex lx) = true.
Proof.
  intros Hmx.
  destruct (binary_round_aux_cases mx ex lx Hmx) as (m2 & Hge & Heq).
  cbv zeta in Heq. rewrite Heq.
  match goal with
  | |- context [match ?q with _ => _ end] =>
      assert (Hq : 0 <= q)
  end.
  { apply Z.div_pos; [|apply Z.pow_pos_nonneg; lia].
    assert (0 <= mx / 2 ^ Z.max 0 (fexp prec emax (Zdigits2 mx + ex) - ex))
      by (apply Z.div_pos; [exact Hmx|apply Z.pow_pos_nonneg; lia]).
    lia. }
  match goal with
  | |- context [match ?q with _ => _ end] => destruct q
  end; [reflexivity| |lia].
  match goal with
  | |- context [if ?b then _ else _] => destruct b
  end; reflexivity.
Qed.

Lemma binary_round_nonneg m e :
  SFnonneg (binary_round prec emax false m e) = true.
Proof.
  unfold binary_round.
  destruct (shl_align m e (fexp prec emax (Zpos (digits2_pos m) + e)))
    as [mz ez].
  apply binary_round_aux_nonneg. lia.
Qed.

Lemma binary_normalize_nonneg z e :
  0 <= z -> SFnonneg (binary_normalize prec emax z e false) = true.
Proof.
  intros Hz. destruct z as [|p|p]; cbn [binary_normalize].
  - reflexivity.
  - apply binary_round_nonneg.
  - lia.
Qed.

(** A mantissa shifted to its exponent keeps at least one digit. *)
Lemma shifted_mantissa_positive m e :
  1 <= m -> -1074 <= e ->
  1 <= m / 2 ^ Z.max 0 (fexp prec emax (Zdigits2 m + e) - e).
Proof.
  intros Hm He. destruct m as [|p|p]; try lia.
  cbn [Zdigits2]. rewrite fexp_spec.
  pose proof (digits2_pos_bounds p) as [Hlo _].
  set (d := Zpos (digits2_pos p)) in *.
  destruct (Z.max_spec 0 (Z.max (d + e - 53) (-1074) - e)) as [[H1 ->]|[H1 ->]].
  - assert (Hn : Z.max (d + e - 53) (-1074) - e = d - 53) by lia.
    rewrite Hn in *.
    apply Z.div_le_lower_bound; [apply Z.pow_pos_nonneg; lia|].
    rewrite Z.mul_1_r.
    transitivity (2 ^ (d - 1)); [|exact Hlo].
    apply Z.pow_le_mono_r; lia.
  - cbn. rewrite Z.div_1_r. lia.
Qed.

Lemma bounded_canonical m e :
  bounded prec emax m e = true ->
  fexp prec emax (Zpos (digits2_pos m) + e) = e /\ -1074 <= e.
Proof.
  unfold bounded, canonical_mantissa. intros H.
  apply andb_prop in H as [H _]. apply Z.eqb_eq in H.
  split; [exact H|]. rewrite fexp_spec in H. lia.
Qed.

(** (B) The sum of two positive doubles is not below the first. *)
Lemma SFadd_finite_ge mx ex md ed :
  bounded prec emax mx ex = true ->
  bounded prec emax md ed = true ->
  SFnonneg (SFadd prec emax (S754_finite false mx ex)
              (S754_finite false md ed)) = true
  /\ rank_le (rank (S754_finite false mx ex))
       (rank (SFadd prec emax (S754_finite false mx ex)
                (S754_finite false md ed))).
Proof.
  intros Hx Hd.
  apply bounded_canonical in Hx as [Hcx Hex].
  apply bounded_canonical in Hd as [Hcd Hed].
  unfold SFadd. cbn [cond_Zopp]. set (ez := Z.min ex ed).
  assert (Hax := shl_align_value mx ex ez ltac:(lia)).
  assert (Had := shl_align_value md ed ez ltac:(lia)).
  set (ax := fst (shl_align mx ex ez)) in *.
  set (ad := fst (shl_align md ed ez)) in *.
  change (Zpos ax + Zpos ad) with (Zpos (ax + ad)).
  cbn [binary_normalize]. unfold binary_round.
  set (mp := (ax + ad)%positive).
  assert (Hmp : Zpos mp = Zpos mx * 2 ^ (ex - ez) + Zpos ad) by (unfold mp; lia).
  assert (Hdig : Zpos (digits2_pos mx) + (ex - ez) <= Zpos (digits2_pos mp)).
  { apply digits2_pos_le_shift; lia. }
  assert (He1 : ex <= fexp prec emax (Zpos (digits2_pos mp) + ez)).
  { rewrite fexp_spec in *. lia. }
  assert (Halign : shl_align mp ez (fexp prec emax (Zpos (digits2_pos mp) + ez))
                   = (mp, ez)).
  { unfold shl_align.
    destruct (fexp prec emax (Zpos (digits2_pos mp) + ez) - ez) eqn:E;
      try reflexivity. lia. }
  rewrite Halign.
  destruct (binary_round_aux_cases (Zpos mp) ez loc_Exact ltac:(lia))
    as (m2 & Hge & Heq).
  cbv zeta in Heq. rewrite Heq. clear Heq.
  cbn [Zdigits2] in *.
  set (e1 := fexp prec emax (Zpos (digits2_pos mp) + ez)) in *.
  replace (Z.max 0 (e1 - ez)) with (e1 - ez) in * by lia.
  replace (ez + (e1 - ez)) with e1 by lia.
  assert (Hm1 : 1 <= Zpos mp / 2 ^ (e1 - ez)).
  { pose proof (shifted_mantissa_positive (Zpos mp) ez ltac:(lia) ltac:(lia))
      as H.
    cbn [Zdigits2] in H. fold e1 in H.
    now replace (Z.max 0 (e1 - ez)) with (e1 - ez) in H by lia. }
  assert (He1' : -1074 <= e1) by lia.
  pose proof (shifted_mantissa_positive m2 e1 ltac:(lia) He1') as Hm3.
  set (n2 := Z.max 0 (fexp prec emax (Zdigits2 m2 + e1) - e1)) in *.
  assert (Hn2 : 0 <= n2) by (unfold n2; lia).
  destruct (m2 / 2 ^ n2) as [|m3|m3] eqn:Em3; try lia.
  destruct (e1 + n2 <=? emax - prec); cbn [SFnonneg rank rank_le].
  - split; [reflexivity|]. right. split; [reflexivity|].
    destruct (Z.eq_dec ex (e1 + n2)) as [Heq|Hne]; [|left; lia].
    right. split; [exact Heq|].
    assert (Hn0 : n2 = 0) by lia. assert (Hee : e1 = ex) by lia.
    rewrite Hn0 in Em3. cbn in Em3. rewrite Z.div_1_r in Em3.
    rewrite <- Em3. transitivity (Zpos mp / 2 ^ (e1 - ez)); [|exact Hge].
    rewrite Hee.
    apply Z.div_le_lower_bound; [apply Z.pow_pos_nonneg; lia|].
    rewrite Hmp. lia.
  - split; [reflexivity|]. left. lia.
Qed.

End Rounding.

Section Order.

Ltac compare_cases :=
  repeat match goal with
         | s : bool |- _ => destruct s
         end;
  cbn [SFnonneg SFcompare rank rank_le rank_lt] in *;
  try discriminate;
  try match goal with
      | |- context [Z.compare ?a ?b] => destruct (Z.compare_spec a b)
      end;
  try match goal with
      | |- context [Pos.compare_cont Eq ?a ?b] =>
          change (Pos.compare_cont Eq a b) with (Pos.compare a b);
          destruct (Pos.compare_spec a b)
      end;
  split; intros; try reflexivity; try discriminate; try lia.

Lemma SFleb_rank x y :
  SFnonneg x = true -> SFnonneg y = true ->
  (SFleb x y = true <-> rank_le (rank x) (rank y)).
Proof.
  unfold SFleb. intros Hx Hy.
  destruct x as [sx|sx| |sx mx ex], y as [sy|sy| |sy my ey]; compare_cases.
Qed.

Lemma SFltb_rank x y :
  SFnonneg x = true -> SFnonneg y = true ->
  (SFltb x y = true <-> rank_lt (rank x) (rank y)).
Proof.
  unfold SFltb. intros Hx Hy.
  destruct x as [sx|sx| |sx mx ex], y as [sy|sy| |sy my ey]; compare_cases.
Qed.

Lemma rank_le_refl a : rank_le a a.
Proof. destruct a as [[c e] m]. unfold rank_le. lia. Qed.

Lemma rank_le_trans a b c : rank_le a b -> rank_le b c -> rank_le a c.
Proof.
  destruct a as [[c1 e1] m1], b as [[c2 e2] m2], c as [[c3 e3] m3].
  unfold rank_le. lia.
Qed.

Lemma rank_lt_le a b : rank_lt a b -> rank_le a b.
Proof.
  destruct a as [[c1 e1] m1], b as [[c2 e2] m2]. unfold rank_lt, rank_le. lia.
Qed.

Lemma rank_not_lt a b : ~ rank_lt a b -> rank_le b a.
Proof.
  destruct a as [[c1 e1] m1], b as [[c2 e2] m2]. unfold rank_lt, rank_le. lia.
Qed.

(** The sum of two doubles that are not negative is not negative, and not
    below the first of them. *)
Lemma SFadd_ge x d :
  valid_binary x = true -> valid_binary d = true ->
  SFnonneg x = true -> SFnonneg d = true ->
  SFnonneg (SFadd prec emax x d) = true
  /\ rank_le (rank x) (rank (SFadd prec emax x d)).
Proof.
  intros Hx Hd Hnx Hnd.
  destruct x as [sx|sx| |sx mx ex], d as [sd|sd| |sd md ed];
    repeat match goal with
           | s : bool |- _ => destruct s
           end;
    cbn [SFnonneg valid_binary] in *; try discriminate;
    try (now apply SFadd_finite_ge);
    cbn [SFadd rank rank_le SFnonneg]; (split; [reflexivity|lia]).
Qed.

End Order.

Section Doubles.

Local Open Scope float_scope.

Lemma nonneg_iff x : nonneg x <-> SFnonneg (Prim2SF x) = true.
Proof.
  unfold nonneg. rewrite leb_spec.
  change (Prim2SF 0) with (S754_zero false).
  destruct (Prim2SF x) as [s|[|]| |[|] m e]; cbn; intuition congruence.
Qed.

Lemma leb_rank x y :
  nonneg x -> nonneg y ->
  ((x <=? y) = true <-> rank_le (rank (Prim2SF x)) (rank (Prim2SF y))).
Proof.
  intros Hx Hy. rewrite leb_spec.
  apply SFleb_rank; now apply nonneg_iff.
Qed.

Lemma ltb_rank x y :
  nonneg x -> nonneg y ->
  ((x <? y) = true <-> rank_lt (rank (Prim2SF x)) (rank (Prim2SF y))).
Proof.
  intros Hx Hy. rewrite ltb_spec.
  apply SFltb_rank; now apply nonneg_iff.
Qed.

Lemma leb_refl x : nonneg x -> (x <=? x) = true.
Proof. intros H. apply leb_rank; auto. apply rank_le_refl. Qed.

Lemma leb_trans x y z :
  nonneg x -> nonneg y -> nonneg z ->
  (x <=? y) = true -> (y <=? z) = true -> (x <=? z) = true.
Proof.
  intros Hx Hy Hz H1 H2. apply leb_rank; auto.
  apply rank_le_trans with (rank (Prim2SF y)); now apply leb_rank.
Qed.

Lemma ltb_leb x y : nonneg x -> nonneg y -> (x <? y) = true -> (x <=? y) = true.
Proof.
  intros Hx Hy H. apply leb_rank; auto. apply rank_lt_le. now apply ltb_rank.
Qed.

Lemma ltb_false_leb x y :
  nonneg x -> nonneg y -> (x <? y) = false -> (y <=? x) = true.
Proof.
  intros Hx Hy H. apply leb_rank; auto. apply rank_not_lt.
  intros Hlt. apply ltb_rank in Hlt; auto. congruence.
Qed.

(** [x + d] is not below [x] when neither is negative: the rounding of the
    sum cannot fall below a double. *)
Lemma add_ge x d :
  nonneg x -> nonneg d -> nonneg (x + d) /\ (x <=? x + d) = true.
Proof.
  intros Hx Hd.
  destruct (SFadd_ge (Prim2SF x) (Prim2SF d) (Prim2SF_valid x)
              (Prim2SF_valid d)) as [Hn Hle];
    try now apply nonneg_iff.
  assert (Hs : nonneg (x + d)).
  { apply nonneg_iff. rewrite add_spec. exact Hn. }
  split; [exact Hs|]. apply leb_rank; auto. rewrite add_spec. exact Hle.
Qed.

Lemma SFldexp_nonneg v e :
  SFnonneg v = true -> SFnonneg (SFldexp prec emax v e) = true.
Proof.
  destruct v as [s|[|]| |[|] m ex]; cbn [SFnonneg SFldexp]; try discriminate;
    intros _; try reflexivity.
  apply binary_round_nonneg.
Qed.

Lemma of_int_nonneg z : (0 <= z)%Z -> nonneg (of_int z).
Proof.
  intros Hz. unfold of_int.
  pose proof (binary_normalize_nonneg z 0 Hz) as Hv.
  destruct (binary_normalize prec emax z 0 false) as [s|[|]| |[|] m e];
    try discriminate.
  - destruct s; reflexivity.
  - reflexivity.
  - apply nonneg_iff. cbn [SF2Prim].
    rewrite Z_ldexp_spec, of_uint63_spec.
    apply SFldexp_nonneg, binary_normalize_nonneg.
    apply Uint63.to_Z_bounded.
Qed.

Lemma SFdiv_nonneg v m e :
  SFnonneg v = true ->
  SFnonneg (SFdiv prec emax v (S754_finite false m e)) = true.
Proof.
  destruct v as [s|[|]| |[|] mx ex]; cbn [SFnonneg SFdiv xorb];
    try discriminate; intros _; try reflexivity.
  unfold SFdiv_core_binary.
  match goal with
  | |- context [Z.div_eucl ?a ?b] =>
      pose proof (Z.div_eucl_eq a b ltac:(lia)) as Heq;
      pose proof (Z.mod_pos_bound a b ltac:(lia)) as Hr;
      unfold Z.modulo in Hr;
      assert (Ha : (0 <= a)%Z);
      [|destruct (Z.div_eucl a b) as [q r]]
  end.
  { match goal with
    | |- context [match ?s with _ => _ end] => destruct s
    end; try lia. apply Z.shiftl_nonneg. lia. }
  apply binary_round_aux_nonneg. nia.
Qed.

(** A quotient by a positive finite double. *)
Lemma div_nonneg a b m e :
  nonneg a -> Prim2SF b = S754_finite false m e -> nonneg (a / b).
Proof.
  intros Ha Hb. apply nonneg_iff. rewrite div_spec, Hb.
  apply SFdiv_nonneg. now apply nonneg_iff.
Qed.

End Doubles.

(** * Facts about the session service *)

Lemma exec_bind {A B} (p : Prog A) (f : A -> Prog B) m q :
  exec (bind p f) m q =
  match exec p m q with
  | (m', q', Done a) => exec (f a) m' q'
  | (m', q', Failed e) => (m', q', Failed e)
  | (m', q', Blocked w k) => (m', q', Blocked w (fun o => bind (k o) f))
  end.
Proof.
  revert m q. induction p; intros; cbn; auto.
Qed.


Lemma stopSession_exec s h q :
  exec stopSession (s, h) q = ((stopped s, teardown s h), q, Done tt).
Proof.
  destruct s as [ic oc src proc str nst conn sp].
  destruct src, proc, str, ic, oc; reflexivity.
Qed.

Lemma nth_error_snoc {X} (l : list X) a : nth_error (l ++ [a]) (length l) = Some a.
Proof. rewrite nth_error_app2, Nat.sub_diag by lia. reflexivity. Qed.

Lemma nth_error_snoc2 {X} (l : list X) a b :
  nth_error ((l ++ [a]) ++ [b]) (length l) = Some a.
Proof.
  rewrite nth_error_app1 by (rewrite length_app; simpl; lia).
  apply nth_error_snoc.
Qed.


Lemma exec_try_catch {A} (p : Prog A) (hd : Exn -> Prog A) m q :
  exec (try_catch p hd) m q =
  match exec p m q with
  | (m', q', Done a) => (m', q', Done a)
  | (m', q', Failed e) => exec (hd e) m' q'
  | (m', q', Blocked w k) => (m', q', Blocked w (fun o => try_catch (k o) hd))
  end.
Proof.
  revert m q. induction p; intros; cbn; auto.
Qed.

Lemma drive_exec_done {A} (p : Prog A) ans m q m' q' a :
  exec p m q = (m', q', Done a) -> drive p ans m q = (m', q', Done a).
Proof.
  revert m q. induction p; intros m0 q0 Hx; cbn in *; auto.
  discriminate.
Qed.

Lemma drive_bind_done {A B} (p : Prog A) (f : A -> Prog B) ans m q m' q' a :
  exec p m q = (m', q', Done a) ->
  drive (bind p f) ans m q = drive (f a) ans m' q'.
Proof.
  revert m q. induction p; intros m0 q0 Hx; cbn in *; auto.
  - now inversion Hx.
  - discriminate.
  - discriminate.
Qed.

Local Arguments stopSession : simpl never.


Lemma playAudioChunk_null s h q base64Audio :
  outputContext s = None ->
  exec (playAudioChunk base64Audio) (s, h) q = ((s, h), q, Done tt).
Proof. intros H. unfold playAudioChunk. cbn. now rewrite H. Qed.

Lemma playAudioChunk_running s h q oc ctx base64Audio x samples :
  outputContext s = Some oc ->
  nth_error (contexts h) oc = Some ctx ->
  state ctx = running ->
  b64ToPcm base64Audio = Ok (x :: samples) ->
  let start := start_at (nextStartTime s) (currentTime ctx) in
  let d := duration_of (length (x :: samples)) in
  exec (playAudioChunk base64Audio) (s, h) q =
  ((set_nextStartTime (start + d)%float s, emit (SourceStart oc start d) h),
   q, Done tt).
Proof.
  intros Hoc Hctx Hst Hdec start d. unfold playAudioChunk. cbn.
  rewrite Hoc. cbn. rewrite Hctx, Hst. cbn. rewrite Hdec. cbn.
  rewrite Hoc. cbn. rewrite Hctx. cbn.
  subst start d. unfold start_at.
  destruct (nextStartTime s <? currentTime ctx)%float; cbn;
    destruct s; reflexivity.
Qed.

Lemma playAudioChunk_malformed s h q oc ctx base64Audio e :
  outputContext s = Some oc ->
  nth_error (contexts h) oc = Some ctx ->
  state ctx = running ->
  b64ToPcm base64Audio = Raise e ->
  exec (playAudioChunk base64Audio) (s, h) q = ((s, h), q, Failed e).
Proof.
  intros Hoc Hctx Hst Hdec. unfold playAudioChunk. cbn.
  rewrite Hoc. cbn. rewrite Hctx, Hst. cbn. now rewrite Hdec.
Qed.

Lemma decoded_nonempty base64Audio x samples :
  b64ToPcm base64Audio = Ok (x :: samples) ->
  (String.length base64Audio =? 0)%nat = false.
Proof.
  destruct base64Audio; [|reflexivity].
  vm_compute. discriminate.
Qed.

Local Arguments playAudioChunk : simpl never.

(** A message with a chunk that decodes, while the output context runs. *)
Lemma onmessage_running sys oc ctx base64Audio x samples :
  outputContext (sys_this sys) = Some oc ->
  nth_error (contexts (sys_host sys)) oc = Some ctx ->
  state ctx = running ->
  b64ToPcm base64Audio = Ok (x :: samples) ->
  let start := start_at (nextStartTime (sys_this sys)) (currentTime ctx) in
  let d := duration_of (length (x :: samples)) in
  task (onmessage (Some base64Audio)) sys =
  mkSys (set_nextStartTime (start + d)%float (sys_this sys),
         emit (SetTimeout 500)
           (emit (SourceStart oc start d)
              (emit (OnAudioActivity true) (sys_host sys))))
        (pending sys
           ++ [Due (clock (sys_host sys) + 500) (onAudioActivity false)]).
Proof.
  destruct sys as [[s h] q]. unfold sys_this, sys_host. cbn [machine fst snd].
  intros Hoc Hctx Hst Hdec.
  unfold task, onmessage. cbn [machine pending].
  rewrite (decoded_nonempty _ _ _ Hdec).
  rewrite exec_bind. cbn [onAudioActivity perform exec fst snd].
  rewrite exec_bind.
  rewrite (playAudioChunk_running s (emit (OnAudioActivity true) h) q oc ctx
             _ x samples Hoc Hctx Hst Hdec).
  reflexivity.
Qed.

Section Scheduling.

Local Open Scope float_scope.

Lemma start_at_is_max cursor now :
  nonneg cursor -> nonneg now -> is_max (start_at cursor now) now cursor.
Proof.
  intros Hc Hn. unfold is_max, start_at.
  destruct (cursor <? now) eqn:E.
  - repeat split; auto using leb_refl, ltb_leb.
  - repeat split; auto using leb_refl, ltb_false_leb.
Qed.

Lemma start_at_nonneg cursor now :
  nonneg cursor -> nonneg now -> nonneg (start_at cursor now).
Proof. intros Hc Hn. unfold start_at. now destruct (cursor <? now). Qed.

Lemma duration_nonneg n : nonneg (duration_of n).
Proof.
  unfold duration_of.
  eapply div_nonneg; [apply of_int_nonneg; lia|].
  vm_compute. reflexivity.
Qed.

Lemma elapsed_nonneg dt : (0 <= dt)%Z -> nonneg (of_int dt / 1000).
Proof.
  intros H. eapply div_nonneg; [now apply of_int_nonneg|].
  vm_compute. reflexivity.
Qed.

Lemma timeline_nonneg arrivals : forall now,
  nonneg now -> Forall (fun a => (0 <= fst a)%Z) arrivals ->
  Forall (fun ch => nonneg (fst ch) /\ nonneg (snd ch)) (timeline now arrivals).
Proof.
  induction arrivals as [|a arrivals IH]; intros now Hnow Hall;
    cbn [timeline]; constructor.
  - apply Forall_cons_iff in Hall as [Ha _]. cbn [fst snd]. split.
    + apply add_ge; [exact Hnow|now apply elapsed_nonneg].
    + apply duration_nonneg.
  - apply Forall_cons_iff in Hall as [Ha Hall]. apply IH; [|exact Hall].
    apply add_ge; [exact Hnow|now apply elapsed_nonneg].
Qed.

(** Starts that follow the cursor never go back, and none is below the
    double its predecessor's end rounds to. *)
Lemma follows_back_to_back chunks : forall starts cursor,
  nonneg cursor ->
  Forall (fun ch => nonneg (fst ch) /\ nonneg (snd ch)) chunks ->
  follows_cursor cursor chunks starts ->
  back_to_back (combine starts (map snd chunks))
  /\ match starts with
     | s :: _ => (cursor <=? s) = true /\ nonneg s
     | [] => True
     end.
Proof.
  induction chunks as [|[now d] chunks IH]; intros [|s starts] cursor Hc Hd H;
    cbn in H; try contradiction.
  - split; exact I.
  - destruct H as [(Hnow & Hcur & Hone) Hrest].
    apply Forall_cons_iff in Hd as [[Hn0 Hd0] Hd']. cbn [fst snd] in Hn0, Hd0.
    assert (Hs : nonneg s) by (destruct Hone; now subst).
    destruct (add_ge s d Hs Hd0) as [Hnext Hle].
    destruct (IH starts (s + d) Hnext Hd' Hrest) as [IH1 IH2].
    split; [|now split].
    cbn [map combine snd]. destruct starts as [|s2 starts].
    + destruct chunks; exact I.
    + destruct chunks as [|[now2 d2] chunks]; [exact I|].
      cbn [map combine snd back_to_back] in *.
      destruct IH2 as [IH2 Hs2].
      repeat split; [exact IH2| |exact IH1].
      now apply leb_trans with (s + d).
Qed.

End Scheduling.

Lemma sources_app tr1 tr2 : sources (tr1 ++ tr2) = sources tr1 ++ sources tr2.
Proof. apply flat_map_app. Qed.

Lemma playable_samples (a : Z * string) x l :
  b64ToPcm (snd a) = Ok (x :: l) -> samples_of (snd a) = length (x :: l).
Proof. intros H. unfold samples_of. now rewrite H. Qed.

Lemma chunks_scheduled arrivals : forall sys t oc ctx,
  tstate (sys_host sys) t = Some opened ->
  outputContext (sys_this sys) = Some oc ->
  nth_error (contexts (sys_host sys)) oc = Some ctx ->
  state ctx = running ->
  nonneg (currentTime ctx) ->
  nonneg (nextStartTime (sys_this sys)) ->
  Forall playable arrivals ->
  exists sys' starts,
    run sys (arrival_events t arrivals) = Some sys'
    /\ sources (trace (sys_host sys')) =
       sources (trace (sys_host sys))
         ++ combine starts (map snd (timeline (currentTime ctx) arrivals))
    /\ follows_cursor (nextStartTime (sys_this sys))
         (timeline (currentTime ctx) arrivals) starts
    /\ nextStartTime (sys_this sys') =
       cursor_after (nextStartTime (sys_this sys))
         (timeline (currentTime ctx) arrivals).
Proof.
  induction arrivals as [|[dt p] arrivals IH];
    intros sys t oc ctx Ht Hoc Hctx Hst Hnow Hcur Hall.
  - exists sys, []. cbn. rewrite app_nil_r. auto.
  - apply Forall_cons_iff in Hall as [[Hdt (x & l & Hdec)] Hall'].
    cbn [fst snd] in Hdt, Hdec.
    destruct sys as [[s h] q]. unfold sys_this, sys_host in *.
    cbn [machine fst snd] in *.
    set (ctx' := mkCtx (sampleRate ctx) running
                   (currentTime ctx + of_int dt / 1000)%float).
    assert (Hnow' : nonneg (currentTime ctx')).
    { apply add_ge; [exact Hnow|now apply elapsed_nonneg]. }
    set (h1 := emit (Elapsed dt)
                 (set_clock (clock h + dt)
                    (set_contexts (map (advance dt) (contexts h)) h))).
    assert (Hctx1 : nth_error (contexts h1) oc = Some ctx').
    { cbn [h1 emit set_trace set_clock set_contexts contexts].
      rewrite nth_error_map, Hctx. cbn [option_map]. unfold advance.
      rewrite Hst. reflexivity. }
    set (start := start_at (nextStartTime s) (currentTime ctx')).
    set (d := duration_of (length (x :: l))).
    pose proof (onmessage_running (mkSys (s, h1) q) oc ctx' p x l
                  Hoc Hctx1 eq_refl Hdec) as Hmsg.
    cbv zeta in Hmsg. unfold sys_this, sys_host in Hmsg.
    cbn [machine fst snd pending] in Hmsg. fold start d in Hmsg.
    match type of Hmsg with _ = ?r => set (sys2 := r) in * end.
    assert (Hstart : nonneg start) by now apply start_at_nonneg.
    assert (Hcur' : nonneg (nextStartTime (sys_this sys2))).
    { apply add_ge; [exact Hstart|apply duration_nonneg]. }
    destruct (IH sys2 t oc ctx')
      as (sys' & starts & Hrun & Hsrc & Hfol & Hend); auto.
    exists sys', (start :: starts).
    split; [|split; [|split]].
    + cbn [arrival_events flat_map fst snd app run step].
      unfold sys_host. cbn [machine snd].
      destruct (Z.leb_spec 0 dt) as [_|]; [|lia].
      unfold with_host. cbn [machine fst snd pending]. fold h1.
      unfold sys_host. cbn [machine snd].
      change (tstate h1 t) with (tstate h t). rewrite Ht.
      rewrite Hmsg. exact Hrun.
    + rewrite Hsrc. unfold sys2, sys_host. cbn [machine snd timeline fst snd].
      cbn [emit set_trace trace]. rewrite !sources_app. cbn [sources flat_map app].
      fold (sources (trace h1)). unfold h1. cbn [emit set_trace trace].
      rewrite sources_app. cbn [sources flat_map app].
      rewrite !app_nil_r, <- app_assoc. cbn [app map combine snd].
      pose proof (playable_samples (dt, p) x l Hdec) as Hn.
      cbn [snd] in Hn. rewrite Hn. reflexivity.
    + cbn [timeline follows_cursor fst snd]. split.
      * now apply start_at_is_max.
      * pose proof (playable_samples (dt, p) x l Hdec) as Hn.
        cbn [snd] in Hn. rewrite Hn. exact Hfol.
    + rewrite Hend. cbn [timeline cursor_after fst snd].
      pose proof (playable_samples (dt, p) x l Hdec) as Hn.
      cbn [snd] in Hn. rewrite Hn. reflexivity.
Qed.

(** ** The retry loop *)

Lemma attempts_app tr1 tr2 :
  attempts (tr1 ++ tr2) = (attempts tr1 + attempts tr2)%nat.
Proof. unfold attempts. now rewrite filter_app, length_app. Qed.

Lemma delays_app tr1 tr2 : delays (tr1 ++ tr2) = delays tr1 ++ delays tr2.
Proof. apply flat_map_app. Qed.

Lemma waited_app tr1 tr2 : waited (tr1 ++ tr2) = waited tr1 ++ waited tr2.
Proof. apply flat_map_app. Qed.

(** [onopen] marks the service connected and starts the audio input; it
    calls neither [connect] nor [setTimeout]. *)
Lemma onopen_exec s h q :
  exists s' h' fx,
    exec onopen (s, h) q = ((s', h'), q, Done tt)
    /\ trace h' = trace h ++ fx
    /\ attempts fx = O /\ delays fx = [] /\ waited fx = []
    /\ errors_reported fx = []
    /\ isConnected s' = true
    /\ transports h' = transports h.
Proof.
  destruct s as [ic oc src proc str nst conn sp].
  destruct ic, str, sp; cbn;
    do 3 eexists; (split; [reflexivity|]); cbn;
    rewrite <- ?app_assoc; (split; [reflexivity|]); cbn; auto 10.
Qed.

Local Arguments onopen : simpl never.


Lemma connectWithRetry_bounded topic onError retries :
  forall delay answers m q,
  exists fx,
    trace_of (drive (connectWithRetry topic onError retries delay)
                answers m q) = trace (snd m) ++ fx
    /\ (attempts fx <= S retries)%nat
    /\ exists more, backoff retries delay = delays fx ++ more.
Proof.
  unfold trace_of.
  induction retries as [|r IH]; intros delay answers [s h] q.
  - destruct answers as [|[e|] rest]; cbn.
    + eexists. split; [reflexivity|]. cbn. split; [lia|]. now exists [].
    + eexists. split; [reflexivity|]. cbn. split; [lia|]. now exists [].
    + match goal with
      | |- context [exec onopen (?s0, ?h0) ?q0] =>
          destruct (onopen_exec s0 h0 q0)
            as (s' & h' & fx & Hex & Htr & Ha & Hd & _)
      end.
      rewrite Hex. cbn. rewrite Htr. cbn. rewrite <- app_assoc.
      eexists. split; [reflexivity|].
      rewrite attempts_app, delays_app, Ha, Hd. cbn.
      split; [lia|]. now exists [].
  - destruct answers as [|[e|] rest].
    + cbn. eexists. split; [reflexivity|]. cbn. split; [lia|].
      now exists (backoff (S r) delay).
    + cbn. destruct rest as [|a rest].
      * cbn. rewrite <- !app_assoc.
        eexists. split; [reflexivity|]. cbn. split; [lia|].
        now exists (backoff r (delay * 2)).
      * cbn -[connectWithRetry].
        match goal with
        | |- context [drive _ rest ?m' q] =>
            destruct (IH (delay * 2) rest m' q) as (fx & Htr & Ha & more & Hd)
        end.
        rewrite Htr. unfold attempts, delays in *.
        destruct (clock h <? clock h + delay); cbn; rewrite <- !app_assoc;
          (eexists; split; [reflexivity|]); cbn;
          (split; [lia|]); exists more; now rewrite Hd.
    + cbn.
      match goal with
      | |- context [exec onopen (?s0, ?h0) ?q0] =>
          destruct (onopen_exec s0 h0 q0)
            as (s' & h' & fx & Hex & Htr & Ha & Hd & _)
      end.
      rewrite Hex. cbn. rewrite Htr. cbn. rewrite <- app_assoc.
      eexists. split; [reflexivity|].
      rewrite attempts_app, delays_app, Ha, Hd. cbn.
      split; [lia|]. now exists (backoff (S r) delay).
Qed.

Lemma update_length {X} (f : X -> X) l : forall i,
  length (update i f l) = length l.
Proof.
  induction l as [|x l IH]; intros [|i]; cbn; auto.
Qed.

(** The host lets a timer run out. *)
Lemma host_answer_timeout s h q due a :
  clock h < due ->
  host_answer (W_timeout due) a (s, h) q =
  (Fulfilled O, (s, emit (Elapsed (due - clock h)) (set_clock due h)), q).
Proof.
  intros Hd. unfold host_answer. cbn [fst snd].
  destruct (Z.ltb_spec (clock h) due) as [_|]; [reflexivity|lia].
Qed.

Local Arguments host_answer : simpl never.

(** Two failures, then a connection: three attempts, 1000 ms and then
    2000 ms apart. *)
Lemma connectWithRetry_third_attempt topic onError e1 e2 rest s h q :
  let t0 := length (transports h) in
  exists m' fx,
    drive (connectWithRetry topic onError 3 1000)
      (Some e1 :: None :: Some e2 :: None :: None :: rest) (s, h) q
    = (m', q, Done (S (S t0)))
    /\ trace (snd m') =
       trace h
         ++ [LiveConnect t0 topic;
             ConsoleWarn "Connection failed, retrying" 1000 3;
             SetTimeout 1000; Elapsed 1000;
             LiveConnect (S t0) topic;
             ConsoleWarn "Connection failed, retrying" 2000 2;
             SetTimeout 2000; Elapsed 2000;
             LiveConnect (S (S t0)) topic]
         ++ fx
    /\ attempts fx = O /\ delays fx = [] /\ waited fx = [].
Proof.
  cbn -[host_answer Z.add Z.mul].
  unfold host_answer at 1. cbn -[host_answer Z.add Z.mul].
  rewrite host_answer_timeout by (cbn; lia).
  cbn -[host_answer Z.add Z.mul].
  unfold host_answer at 1. cbn -[host_answer Z.add Z.mul].
  rewrite host_answer_timeout by (cbn; lia).
  cbn -[host_answer Z.add Z.mul].
  unfold host_answer. cbn -[Z.add Z.mul].
  match goal with
  | |- context [exec onopen (?s0, ?h0) ?q0] =>
      destruct (onopen_exec s0 h0 q0)
        as (s' & h' & fx & Hex & Htr & Ha & Hd & Hw & _)
  end.
  rewrite Hex. exists (s', h'), fx.
  repeat (rewrite ?update_length, ?length_app; cbn [length]).
  replace (length (transports h) + 1 + 1)%nat
    with (S (S (length (transports h)))) by lia.
  split; [reflexivity|].
  cbn [snd]. rewrite Htr. cbn. rewrite <- !app_assoc.
  repeat (rewrite ?update_length, ?length_app; cbn [length]).
  replace (length (transports h) + 1 + 1)%nat
    with (S (S (length (transports h)))) by lia.
  replace (length (transports h) + 1)%nat
    with (S (length (transports h))) by lia.
  replace (clock h + 1000 - clock h) with 1000 by lia.
  replace (clock h + 1000 + 2000 - (clock h + 1000)) with 2000 by lia.
  auto.
Qed.

(** Four failures: the last error is thrown, after four attempts that are
    1000, 2000 and 4000 ms apart; whatever the host would answer next is
    not asked for. *)
Lemma connectWithRetry_exhausted topic onError e1 e2 e3 e4 rest s h q :
  let t0 := length (transports h) in
  exists m',
    drive (connectWithRetry topic onError 3 1000)
      (Some e1 :: None :: Some e2 :: None :: Some e3 :: None :: Some e4
         :: rest) (s, h) q
    = (m', q, Failed e4)
    /\ trace (snd m') =
       trace h
         ++ [LiveConnect t0 topic;
             ConsoleWarn "Connection failed, retrying" 1000 3;
             SetTimeout 1000; Elapsed 1000;
             LiveConnect (S t0) topic;
             ConsoleWarn "Connection failed, retrying" 2000 2;
             SetTimeout 2000; Elapsed 2000;
             LiveConnect (S (S t0)) topic;
             ConsoleWarn "Connection failed, retrying" 4000 1;
             SetTimeout 4000; Elapsed 4000;
             LiveConnect (S (S (S t0))) topic].
Proof.
  cbn -[host_answer Z.add Z.mul].
  unfold host_answer at 1. cbn -[host_answer Z.add Z.mul].
  rewrite host_answer_timeout by (cbn; lia).
  cbn -[host_answer Z.add Z.mul].
  unfold host_answer at 1. cbn -[host_answer Z.add Z.mul].
  rewrite host_answer_timeout by (cbn; lia).
  cbn -[host_answer Z.add Z.mul].
  unfold host_answer at 1. cbn -[host_answer Z.add Z.mul].
  rewrite host_answer_timeout by (cbn; lia).
  cbn -[host_answer Z.add Z.mul].
  unfold host_answer. cbn -[Z.add Z.mul].
  eexists. split; [reflexivity|].
  cbn. rewrite <- !app_assoc.
  repeat (rewrite ?update_length, ?length_app; cbn [length]).
  replace (clock h + 1000 - clock h) with 1000 by lia.
  replace (clock h + 1000 + 2000 - (clock h + 1000)) with 2000 by lia.
  replace (clock h + 1000 + 2000 + 4000 - (clock h + 1000 + 2000))
    with 4000 by lia.
  replace (length (transports h) + 1 + 1 + 1)%nat
    with (S (S (S (length (transports h))))) by lia.
  replace (length (transports h) + 1 + 1)%nat
    with (S (S (length (transports h)))) by lia.
  replace (length (transports h) + 1)%nat
    with (S (length (transports h))) by lia.
  reflexivity.
Qed.

(** ** Failure of [startSession] *)

Lemma nth_error_update_eq {X} (f : X -> X) l : forall i j,
  i = j -> nth_error (update i f l) j = option_map f (nth_error l j).
Proof.
  intros i j <-. revert i.
  induction l as [|x l IH]; intros [|i]; cbn; auto.
Qed.

Lemma nth_error_update_neq {X} (f : X -> X) l : forall i j,
  i <> j -> nth_error (update i f l) j = nth_error l j.
Proof.
  induction l as [|x l IH]; intros [|i] [|j] H; cbn; auto.
  congruence.
Qed.

Lemma nth_error_last {X} (l : list X) a i :
  i = length l -> nth_error (l ++ [a]) i = Some a.
Proof. intros ->. apply nth_error_snoc. Qed.

Lemma nth_error_last2 {X} (l : list X) a b i :
  i = length l -> nth_error ((l ++ [a]) ++ [b]) i = Some a.
Proof. intros ->. apply nth_error_snoc2. Qed.

Ltac handles := rewrite ?update_length, ?length_app; cbn [length]; lia.

Ltac lookup :=
  repeat first
    [ rewrite nth_error_update_eq by handles
    | rewrite nth_error_update_neq by handles
    | rewrite nth_error_last2 by handles
    | rewrite nth_error_last by handles ].

Lemma drive_report e onError ans s h q :
  drive (when onError (call_onError e) ;; stopSession)%prog ans (s, h) q =
  ((stopped s, teardown s (if onError then emit (OnError e) h else h)),
   q, Done tt).
Proof.
  apply drive_exec_done. rewrite exec_bind.
  destruct onError; cbn [when call_onError perform exec fst snd];
    now rewrite stopSession_exec.
Qed.

Lemma idle_inv s :
  idle s ->
  s = mkService None None None None None 0%float false (sessionPromise s).
Proof.
  destruct s; unfold idle; cbn.
  intros (H1 & H2 & H3 & H4 & H5 & H6 & H7). now subst.
Qed.

(** *** Symbolic runs

    One step of [drive] at a time, by rewriting with its equations. *)

Lemma drive_Ret {A} (a : A) ans m q : drive (Ret a) ans m q = (m, q, Done a).
Proof. reflexivity. Qed.

Lemma drive_Throw {A} e ans m q :
  drive (@Throw A e) ans m q = (m, q, Failed e).
Proof. reflexivity. Qed.

Lemma drive_Get {A} (k : Machine -> Prog A) ans m q :
  drive (Get k) ans m q = drive (k m) ans m q.
Proof. reflexivity. Qed.

Lemma drive_Put {A} m' (k : Prog A) ans m q :
  drive (Put m' k) ans m q = drive k ans m' q.
Proof. reflexivity. Qed.

Lemma drive_Await {A} w (k : Outcome -> Prog A) a rest m q o m' q' :
  host_answer w a m q = (o, m', q') ->
  drive (Await w k) (a :: rest) m q = drive (k o) rest m' q'.
Proof. intros H. cbn [drive]. now rewrite H. Qed.

Lemma host_answer_resume c s h q :
  host_answer (W_resume c) None (s, h) q =
  (Fulfilled O,
   (s, set_contexts (update c (set_state running) (contexts h)) h), q).
Proof. reflexivity. Qed.

Lemma host_answer_media s h q :
  host_answer W_getUserMedia None (s, h) q =
  (Fulfilled (length (streams h)),
   (s, set_streams (streams h ++ [true]) h), q).
Proof. reflexivity. Qed.

Lemma host_answer_media_denied e s h q :
  host_answer W_getUserMedia (Some e) (s, h) q = (Rejected e, (s, h), q).
Proof. reflexivity. Qed.

Lemma host_answer_refused t e s h q :
  host_answer (W_connect t) (Some e) (s, h) q =
  (Rejected e, (s, set_tstate t failed h), q).
Proof. reflexivity. Qed.

Lemma host_answer_opened t s h q s' h' :
  exec onopen (s, set_tstate t opened h) q = ((s', h'), q, Done tt) ->
  host_answer (W_connect t) None (s, h) q = (Fulfilled t, (s', h'), q).
Proof. intros H. unfold host_answer. cbn [fst snd]. now rewrite H. Qed.

Lemma onopen_ready ic oc str nst conn sp h q :
  exec onopen
    (mkService (Some ic) (Some oc) None None (Some str) nst conn (Some sp), h)
    q =
  ((mkService (Some ic) (Some oc) (Some (length (nodes h)))
      (Some (S (length (nodes h)))) (Some str) nst true (Some sp),
    set_nodes
      (update (S (length (nodes h))) (fun _ => true)
         (update (length (nodes h)) (fun _ => true)
            ((nodes h ++ [false]) ++ [false])))
      (emit (CreateNode (S (length (nodes h))))
         (emit (CreateNode (length (nodes h)))
            (emit (ConsoleLog "Gemini Live Session Opened") h)))),
   q, Done tt).
Proof.
  unfold onopen. cbn. rewrite length_app. cbn [length].
  now replace (length (nodes h) + 1)%nat with (S (length (nodes h))) by lia.
Qed.

Ltac await_step :=
  first
    [ rewrite (drive_Await _ _ _ _ _ _ _ _ _
                 (host_answer_refused _ _ _ _ _))
    | rewrite (drive_Await _ _ _ _ _ _ _ _ _
                 (host_answer_media_denied _ _ _ _))
    | rewrite (drive_Await _ _ _ _ _ _ _ _ _ (host_answer_media _ _ _))
    | rewrite (drive_Await _ _ _ _ _ _ _ _ _ (host_answer_resume _ _ _ _))
    | lazymatch goal with
      | |- context [drive (Await (W_timeout ?due) ?k) (?a :: ?rest)
                      (?s, ?h) ?q] =>
          let H := fresh in
          assert (H : clock h < due) by (cbn; lia);
          rewrite (drive_Await _ _ _ _ _ _ _ _ _
                     (host_answer_timeout s h q due a H));
          clear H
      end
    | lazymatch goal with
      | |- context [drive (Await (W_connect ?t) ?k) (None :: ?rest)
                      (?s, ?h) ?q] =>
          let s' := eval cbv [set_inputContext set_outputContext
                              set_currentStream set_sessionPromise
                              inputContext outputContext inputSource processor
                              currentStream nextStartTime isConnected
                              sessionPromise] in s in
          change s with s';
          rewrite (drive_Await _ _ _ _ _ _ _ _ _
                     (host_answer_opened _ _ _ _ _ _
                        (onopen_ready _ _ _ _ _ _ _ _)))
      end ].

Ltac tidy :=
  cbv beta;
  cbn -[drive exec bind try_catch connectWithRetry stopSession onopen
        host_answer update nth_error Z.add Z.mul].

Ltac drive_step :=
  lazymatch goal with
  | |- context [@drive ?A ?p ?a ?m ?q] =>
      let p' := eval hnf in p in
      lazymatch p' with
      | Ret _ =>
          change (@drive A p a m q) with (@drive A p' a m q);
          rewrite drive_Ret
      | Throw _ =>
          change (@drive A p a m q) with (@drive A p' a m q);
          rewrite drive_Throw
      | Get _ =>
          change (@drive A p a m q) with (@drive A p' a m q);
          rewrite drive_Get; tidy
      | Put _ _ =>
          change (@drive A p a m q) with (@drive A p' a m q);
          rewrite drive_Put; tidy
      | Await _ _ =>
          change (@drive A p a m q) with (@drive A p' a m q);
          await_step; tidy
      | _ =>
          let p'' := eval cbn -[connectWithRetry stopSession onopen
                                host_answer update nth_error Z.add Z.mul]
                     in p in
          progress change (@drive A p a m q) with (@drive A p'' a m q)
      end
  end.

Ltac run_drive :=
  repeat first
    [ drive_step
    | progress lookup
    | rewrite drive_report
    | match goal with
      | H : autoplay _ = _ |- _ => rewrite H
      end ].

Ltac norm_handles :=
  repeat (rewrite ?update_length, ?length_app; cbn [length]);
  repeat match goal with
         | |- context [(?n + 1)%nat] =>
             replace (n + 1)%nat with (S n) by lia
         end.

Ltac norm_waits :=
  repeat match goal with
         | |- context [Elapsed (?a + ?d - ?a)] =>
             replace (a + d - a) with d by lia
         end.

Ltac trace_eq :=
  cbn; rewrite <- ?app_assoc; cbn; norm_handles; norm_waits; reflexivity.

Lemma startSession_mic_denied topic onError s h q e :
  idle s ->
  let c0 := length (contexts h) in
  exists h',
    drive (startSession topic onError) (resumes h ++ [Some e]) (s, h) q
    = ((stopped s, h'), q, Done tt)
    /\ trace h' =
       trace h ++ acquisition h ++ report onError e
         ++ [Close c0; Close (S c0)]
    /\ ctx_state_at h' c0 = Some closed
    /\ ctx_state_at h' (S c0) = Some closed
    /\ streams h' = streams h /\ transports h' = transports h.
Proof.
  intros Hidle c0. rewrite (idle_inv s Hidle). set (sp := sessionPromise s).
  clearbody sp. clear Hidle s. subst c0.
  unfold resumes, acquisition, report.
  destruct (autoplay h) eqn:Hauto; cbn [eq_state app];
    unfold startSession; run_drive;
    (eexists; split; [reflexivity|]);
    (split; [destruct onError; trace_eq|]);
    destruct onError; unfold ctx_state_at; cbn -[update nth_error]; lookup;
    cbn; auto.
Qed.

Lemma startSession_exhausted topic onError s h q e1 e2 e3 e :
  idle s ->
  let c0 := length (contexts h) in
  let st := length (streams h) in
  exists h',
    drive (startSession topic onError)
      (resumes h ++ [None; Some e1; None; Some e2; None; Some e3; None;
                     Some e]) (s, h) q
    = ((set_sessionPromise (Some (promises h)) (stopped s), h'), q, Done tt)
    /\ trace h' =
       trace h ++ acquisition h ++ exhaustion h topic ++ report onError e
         ++ [TrackStop st; Close c0; Close (S c0)]
    /\ ctx_state_at h' c0 = Some closed
    /\ ctx_state_at h' (S c0) = Some closed
    /\ nth_error (streams h') st = Some false.
Proof.
  intros Hidle c0 st. rewrite (idle_inv s Hidle). set (sp := sessionPromise s).
  clearbody sp. clear Hidle s. subst c0 st.
  unfold resumes, acquisition, exhaustion, report.
  destruct (autoplay h) eqn:Hauto; cbn [eq_state app];
    unfold startSession; run_drive;
    (eexists; split; [reflexivity|]);
    (split; [destruct onError; trace_eq|]);
    destruct onError; unfold ctx_state_at; cbn -[update nth_error]; lookup;
    cbn; auto.
Qed.

(** With the microphone granted and the first connection opened, a call of
    [startSession] on a service that holds nothing ends with the service
    connected and every resource field set; [onError] is not called. *)
Lemma startSession_succeeds topic onError s h q :
  idle s ->
  exists s' h' fx,
    drive (startSession topic onError) (resumes h ++ [None; None]) (s, h) q
    = ((s', h'), q, Done tt)
    /\ isConnected s' = true
    /\ inputContext s' = Some (length (contexts h))
    /\ outputContext s' = Some (S (length (contexts h)))
    /\ currentStream s' = Some (length (streams h))
    /\ inputSource s' = Some (length (nodes h))
    /\ processor s' = Some (S (length (nodes h)))
    /\ tstate h' (length (transports h)) = Some opened
    /\ trace h' = trace h ++ fx
    /\ errors_reported fx = [].
Proof.
  intros Hidle. rewrite (idle_inv s Hidle). set (sp := sessionPromise s).
  clearbody sp. clear Hidle s.
  unfold resumes.
  destruct (autoplay h) eqn:Hauto; cbn [eq_state app];
    unfold startSession; run_drive;
    (do 3 eexists; split; [reflexivity|]);
    unfold tstate; cbn -[update nth_error]; norm_handles; lookup;
    rewrite <- ?app_assoc; cbn; auto 10.
Qed.

(** ** [stopSession], late chunks and timers *)

Lemma stopped_idem s : stopped (stopped s) = stopped s.
Proof. reflexivity. Qed.

Lemma teardown_stopped s h : teardown (stopped s) h = h.
Proof. reflexivity. Qed.

Lemma idle_stopped s : idle (stopped s).
Proof. repeat split. Qed.

Lemma stopped_idle s : idle s -> stopped s = s.
Proof. intros H. now rewrite (idle_inv s H) at 2. Qed.

Lemma teardown_idle s h : idle s -> teardown s h = h.
Proof. intros H. now rewrite (idle_inv s H). Qed.

Lemma teardown_sources s h :
  sources (trace (teardown s h)) = sources (trace h).
Proof.
  unfold teardown. destruct s as [ic oc src proc str nst conn sp].
  destruct ic, oc, src, proc, str; cbn; rewrite ?sources_app; cbn;
    rewrite ?app_nil_r; reflexivity.
Qed.

Lemma teardown_transports s h : transports (teardown s h) = transports h.
Proof.
  unfold teardown. destruct s as [ic oc src proc str nst conn sp].
  destruct ic, oc, src, proc, str; reflexivity.
Qed.

Lemma teardown_closes_output s h oc :
  outputContext s = Some oc ->
  exists fx, trace (teardown s h) = trace h ++ fx ++ [Close oc].
Proof.
  unfold teardown. destruct s as [ic oc' src proc str nst conn sp].
  cbn [outputContext]. intros ->.
  destruct ic, src, proc, str; cbn; rewrite <- ?app_assoc; cbn;
    match goal with
    | |- exists fx, _ ++ ?l = _ ++ fx ++ _ =>
        exists (removelast l); reflexivity
    end.
Qed.

(** A program only ever adds to what is pending. *)
Lemma exec_pending_grows {A} (p : Prog A) : forall m q,
  exists extra, snd (fst (exec p m q)) = q ++ extra.
Proof.
  induction p as [A a|A e|A k IH|A m' k IH|A w k IH|A d cb IHcb k IH];
    intros m q; cbn.
  - exists []. now rewrite app_nil_r.
  - exists []. now rewrite app_nil_r.
  - apply IH.
  - apply IH.
  - exists []. now rewrite app_nil_r.
  - destruct (IH m (q ++ [Due (clock (snd m) + d) cb])) as [extra H].
    rewrite H, <- app_assoc. eauto.
Qed.

Lemma task_pending_grows p sys :
  exists extra, pending (task p sys) = pending sys ++ extra.
Proof.
  unfold task.
  destruct (exec_pending_grows p (machine sys) (pending sys)) as [extra H].
  destruct (exec p (machine sys) (pending sys)) as [[m q] [a|e|w k]];
    cbn in *; rewrite H.
  - eauto.
  - eauto.
  - rewrite <- app_assoc. eauto.
Qed.

(** A timer that is due runs its callback and leaves the table; one that
    is not due cannot be run. *)
Lemma activity_timer_fires sys i due :
  nth_error (pending sys) i = Some (Due due (onAudioActivity false)) ->
  step sys (E_settle i None) =
  if due <=? clock (sys_host sys)
  then Some (mkSys (sys_this sys, emit (OnAudioActivity false) (sys_host sys))
               (remove_nth i (pending sys)))
  else None.
Proof.
  intros H. cbn [step]. rewrite H.
  destruct (due <=? clock (sys_host sys)); reflexivity.
Qed.

Lemma malformed_nonempty base64Audio e :
  b64ToPcm base64Audio = Raise e ->
  (String.length base64Audio =? 0)%nat = false.
Proof.
  destruct base64Audio; [|reflexivity].
  vm_compute. discriminate.
Qed.

(** A message whose chunk does not decode, while the output context runs. *)
Lemma onmessage_malformed sys oc ctx base64Audio e :
  outputContext (sys_this sys) = Some oc ->
  nth_error (contexts (sys_host sys)) oc = Some ctx ->
  state ctx = running ->
  b64ToPcm base64Audio = Raise e ->
  task (onmessage (Some base64Audio)) sys =
  mkSys (sys_this sys,
         emit (Unhandled e) (emit (OnAudioActivity true) (sys_host sys)))
        (pending sys).
Proof.
  destruct sys as [[s h] q]. unfold sys_this, sys_host. cbn [machine fst snd].
  intros Hoc Hctx Hst Hdec.
  unfold task, onmessage. cbn [machine pending].
  rewrite (malformed_nonempty _ _ Hdec).
  rewrite exec_bind. cbn [onAudioActivity perform exec fst snd].
  rewrite exec_bind.
  rewrite (playAudioChunk_malformed s (emit (OnAudioActivity true) h) q oc ctx
             _ e Hoc Hctx Hst Hdec).
  reflexivity.
Qed.

(** A message with a chunk while the service holds no output context. *)
Lemma onmessage_null sys base64Audio :
  outputContext (sys_this sys) = None ->
  (String.length base64Audio =? 0)%nat = false ->
  task (onmessage (Some base64Audio)) sys =
  mkSys (sys_this sys,
         emit (SetTimeout 500) (emit (OnAudioActivity true) (sys_host sys)))
        (pending sys
           ++ [Due (clock (sys_host sys) + 500) (onAudioActivity false)]).
Proof.
  destruct sys as [[s h] q]. unfold sys_this, sys_host. cbn [machine fst snd].
  intros Hoc Hne.
  unfold task, onmessage. cbn [machine pending]. rewrite Hne.
  rewrite exec_bind. cbn [onAudioActivity perform exec fst snd].
  rewrite exec_bind.
  rewrite (playAudioChunk_null s (emit (OnAudioActivity true) h) q _ Hoc).
  reflexivity.
Qed.

(** Whatever [playAudioChunk] does up to its end or its first [await], it
    only adds to the trace. *)
Lemma playAudioChunk_extends base64Audio s h q :
  exists fx,
    trace_of (exec (playAudioChunk base64Audio) (s, h) q) = trace h ++ fx.
Proof.
  assert (Hnil : trace h = trace h ++ []) by now rewrite app_nil_r.
  unfold trace_of, playAudioChunk. cbn.
  destruct (outputContext s) as [oc|] eqn:Hoc; cbn; [|now exists []].
  destruct (nth_error (contexts h) oc) as [ctx|] eqn:Hctx; cbn;
    [destruct (state ctx); cbn|];
    try (eexists; reflexivity);
    (destruct (b64ToPcm base64Audio) as [[|x l]|e]; cbn;
     rewrite ?Hoc; cbn; rewrite ?Hctx; cbn; [now exists []| |now exists []]);
    match goal with
    | |- context [(?a <? ?b)%float] => destruct (a <? b)%float
    end; cbn; eexists; reflexivity.
Qed.

(** Every message with a chunk calls the activity callback with [true]
    before anything else. *)
Lemma onmessage_activity_first sys base64Audio :
  (String.length base64Audio =? 0)%nat = false ->
  exists rest,
    trace (sys_host (task (onmessage (Some base64Audio)) sys)) =
    trace (sys_host sys) ++ OnAudioActivity true :: rest.
Proof.
  destruct sys as [[s h] q]. unfold sys_host. cbn [machine snd].
  intros Hne. unfold task, onmessage. cbn [machine pending]. rewrite Hne.
  rewrite exec_bind. cbn [onAudioActivity perform exec fst snd].
  rewrite exec_bind.
  destruct (playAudioChunk_extends base64Audio s
              (emit (OnAudioActivity true) h) q) as [fx Hfx].
  unfold trace_of in Hfx.
  destruct (exec (playAudioChunk base64Audio)
              (s, emit (OnAudioActivity true) h) q)
    as [[[s1 h1] q1] [[]|e|w k]]; cbn in Hfx |- *; rewrite Hfx;
    rewrite <- ?app_assoc; cbn; eauto.
Qed.

(* ================================================================== *)
(** * The properties of the specification *)
(* ================================================================== *)

Section Playback.

Local Open Scope float_scope.

(** C1, as the specification states it, fails in the arithmetic of the
    source.  Five chunks of two samples each are enqueued at device time 0.
    Each lasts [d], the double nearest to 2/24000, and the starts are
    0, [d], [d + d], ... summed in doubles.  The fifth start is below the
    fourth start plus the duration of the fourth chunk, whether that
    duration is taken as the double [d] or as the exact 2/24000: the sum
    was rounded down. *)
Lemma chunk_starts_before_predecessor_ends :
  let d := duration_of 2 in
  let chunk := (0%Z, "AAABAA=="%string) in
  samples_of "AAABAA==" = 2%nat
  /\ option_map sources
       (trace_after session_open
          (arrival_events O [chunk; chunk; chunk; chunk; chunk]))
     = Some [(0, d); (d, d); (d + d, d); (d + d + d, d);
             (d + d + d + d, d)]
  /\ (value (d + d + d + d) < value (d + d + d) + value d)%Q
  /\ (value (d + d + d + d) < value (d + d + d) + (2 # 24000))%Q.
Proof.
  cbv zeta. split; [vm_compute; reflexivity|].
  split; [vm_compute; reflexivity|].
  split; vm_compute; reflexivity.
Qed.

Lemma timeline_playable arrivals :
  Forall playable arrivals ->
  Forall (fun a => (0 <= fst a)%Z) arrivals.
Proof.
  intros H. revert H. apply Forall_impl. now intros a [Ha _].
Qed.

(** C1.  Chunks that arrive one after the other while the output context
    runs are each started at [max(now, nextStartTime)], where [now] is the
    device time at which the chunk is enqueued; the cursor [nextStartTime]
    is 0 in a new service and after each enqueue it is the double that the
    start plus the duration of the chunk rounds to, the duration being the
    double nearest to the sample count over 24000.  So each chunk starts no
    earlier than its predecessor starts, and no earlier than the double
    that its predecessor's start plus duration rounds to.  The device time
    and the cursor are taken not to be negative, and the cursor to stay
    finite. *)
Theorem playback_follows_cursor sys t oc ctx arrivals :
  tstate (sys_host sys) t = Some opened ->
  outputContext (sys_this sys) = Some oc ->
  nth_error (contexts (sys_host sys)) oc = Some ctx ->
  state ctx = running ->
  nonneg (currentTime ctx) ->
  nonneg (nextStartTime (sys_this sys)) ->
  finite (cursor_after (nextStartTime (sys_this sys))
            (timeline (currentTime ctx) arrivals)) ->
  Forall playable arrivals ->
  nextStartTime new_service = 0
  /\ exists sys' starts,
       run sys (arrival_events t arrivals) = Some sys'
       /\ sources (trace (sys_host sys')) =
          sources (trace (sys_host sys))
            ++ combine starts (map snd (timeline (currentTime ctx) arrivals))
       /\ follows_cursor (nextStartTime (sys_this sys))
            (timeline (currentTime ctx) arrivals) starts
       /\ back_to_back
            (combine starts (map snd (timeline (currentTime ctx) arrivals)))
       /\ nextStartTime (sys_this sys') =
          cursor_after (nextStartTime (sys_this sys))
            (timeline (currentTime ctx) arrivals).
Proof.
  intros Ht Hoc Hctx Hst Hnow Hcur _ Hall. split; [reflexivity|].
  destruct (chunks_scheduled arrivals sys t oc ctx Ht Hoc Hctx Hst Hnow Hcur
              Hall) as (sys' & starts & Hrun & Hsrc & Hfol & Hend).
  exists sys', starts. repeat split; auto.
  apply (follows_back_to_back _ _ _ Hcur); [|exact Hfol].
  apply timeline_nonneg; [exact Hnow|now apply timeline_playable].
Qed.

End Playback.

(** Two chunks of two samples each, the second 200 ms after the first. *)
Lemma playback_follows_cursor_witness :
  let arrivals := [(0, "AAABAA=="%string); (200, "AAABAA=="%string)] in
  tstate (sys_host session_open) O = Some opened
  /\ outputContext (sys_this session_open) = Some 1%nat
  /\ nth_error (contexts (sys_host session_open)) 1
     = Some (mkCtx OUTPUT_SAMPLE_RATE running 0%float)
  /\ finite (cursor_after (nextStartTime (sys_this session_open))
               (timeline 0%float arrivals))
  /\ Forall playable arrivals
  /\ exists sys' starts,
       run session_open (arrival_events O arrivals) = Some sys'
       /\ sources (trace (sys_host sys')) =
          sources (trace (sys_host session_open))
            ++ combine starts (map snd (timeline 0%float arrivals))
       /\ follows_cursor (nextStartTime (sys_this session_open))
            (timeline 0%float arrivals) starts
       /\ back_to_back
            (combine starts (map snd (timeline 0%float arrivals)))
       /\ nextStartTime (sys_this sys') =
          cursor_after (nextStartTime (sys_this session_open))
            (timeline 0%float arrivals).
Proof.
  intros arrivals.
  assert (Hp : Forall playable arrivals).
  { repeat constructor; cbn; try lia; do 2 eexists; reflexivity. }
  assert (Hf : finite (cursor_after (nextStartTime (sys_this session_open))
                         (timeline 0%float arrivals))).
  { vm_compute. reflexivity. }
  split; [reflexivity|]. split; [reflexivity|]. split; [reflexivity|].
  split; [exact Hf|]. split; [exact Hp|].
  exact (proj2 (playback_follows_cursor session_open O 1%nat
                  (mkCtx OUTPUT_SAMPLE_RATE running 0%float) arrivals
                  eq_refl eq_refl eq_refl eq_refl eq_refl eq_refl Hf Hp)).
Defined.

Section RoundTrip.

Local Open Scope Q_scope.

(** C2, as the specification states it, fails: the sample [1 - 2^-17] is
    encoded as 32766 and decoded as [32766/32768], which is [1.75/32768]
    away from it. *)
Lemma roundtrip_error_exceeds_quantum :
  range_ok (131071 # 131072)
  /\ pcmToB64 [131071 # 131072] = Ok "/n8="%string
  /\ b64ToPcm "/n8=" = Ok [32766 # 32768]
  /\ ~ Qabs ((32766 # 32768) - (131071 # 131072)) <= 1 # 32768.
Proof.
  split; [|split; [|split]].
  - unfold range_ok, Qle; cbn; lia.
  - vm_compute. reflexivity.
  - vm_compute. reflexivity.
  - vm_compute. intros H. now apply H.
Qed.

(** C2, amended.  For every sequence of samples in [-1, 1], decoding the
    encoding gives a sequence of the same length in which every sample
    differs from the original by less than 2/32768, and by less than
    1/32768 where the original is negative. *)
Theorem roundtrip_within_two_quanta (s : list Q) :
  Forall range_ok s ->
  exists text out,
    pcmToB64 s = Ok text /\ b64ToPcm text = Ok out
    /\ length out = length s
    /\ Forall2 (fun x y => Qabs (y - x) < 2 # 32768
                           /\ (x < 0 -> Qabs (y - x) < 1 # 32768)) s out.
Proof.
  intros Hs.
  destruct (b64ToPcm_pcmToB64 s) as (text & Henc & Hdec).
  exists text, (map requantize s).
  split; [exact Henc|]. split; [exact Hdec|]. split; [apply length_map|].
  clear text Henc Hdec.
  induction Hs as [|x s Hx _ IH]; cbn [map]; constructor; [|exact IH].
  destruct Hx as [Hl Hu]. split.
  - apply requantize_error. now split.
  - intros Hneg. apply Qabs_Qlt_condition.
    pose proof (requantize_neg_error x (conj Hl Hneg)) as [H1 H2].
    split; lra.
Qed.

End RoundTrip.

Lemma roundtrip_within_two_quanta_witness :
  Forall range_ok [(1 # 2)%Q; (-1 # 3)%Q; 1%Q]
  /\ exists text out,
       pcmToB64 [(1 # 2)%Q; (-1 # 3)%Q; 1%Q] = Ok text
       /\ b64ToPcm text = Ok out
       /\ length out = 3%nat
       /\ Forall2 (fun x y => (Qabs (y - x) < 2 # 32768)%Q
                              /\ ((x < 0)%Q -> (Qabs (y - x) < 1 # 32768)%Q))
            [(1 # 2)%Q; (-1 # 3)%Q; 1%Q] out.
Proof.
  assert (H : Forall range_ok [(1 # 2)%Q; (-1 # 3)%Q; 1%Q]).
  { repeat constructor; unfold Qle; cbn; lia. }
  split; [exact H|].
  exact (roundtrip_within_two_quanta [(1 # 2)%Q; (-1 # 3)%Q; 1%Q] H).
Defined.

Section Retry.

(** C3.  A call of [connect] with the default budget makes at most four
    attempts, and the delays it waits are the first of 1000, 2000 and
    4000 ms, in this order.  When the first two attempts fail and the third
    succeeds the call returns the third connection, having waited 1000 ms
    and then 2000 ms.  When four attempts fail the call throws the last
    error after the fourth attempt and makes no further one.  In the event
    loop a delay cannot be cut short: the suspended call is resumed only
    once its timer is due. *)
Theorem connect_retry_policy :
  (forall topic onError answers m q,
     exists fx,
       trace_of (drive (connectWithRetry topic onError 3 1000) answers m q)
       = trace (snd m) ++ fx
       /\ (attempts fx <= 4)%nat
       /\ exists more, [1000; 2000; 4000] = delays fx ++ more)
  /\ (forall topic onError e1 e2 rest s h q,
        let t0 := length (transports h) in
        exists m' fx,
          drive (connectWithRetry topic onError 3 1000)
            (Some e1 :: None :: Some e2 :: None :: None :: rest) (s, h) q
          = (m', q, Done (S (S t0)))
          /\ trace (snd m') =
             trace h
               ++ [LiveConnect t0 topic;
                   ConsoleWarn "Connection failed, retrying" 1000 3;
                   SetTimeout 1000; Elapsed 1000;
                   LiveConnect (S t0) topic;
                   ConsoleWarn "Connection failed, retrying" 2000 2;
                   SetTimeout 2000; Elapsed 2000;
                   LiveConnect (S (S t0)) topic]
               ++ fx
          /\ attempts fx = O /\ delays fx = [] /\ waited fx = [])
  /\ (forall topic onError e1 e2 e3 e4 rest s h q,
        let t0 := length (transports h) in
        exists m',
          drive (connectWithRetry topic onError 3 1000)
            (Some e1 :: None :: Some e2 :: None :: Some e3 :: None
               :: Some e4 :: rest) (s, h) q
          = (m', q, Failed e4)
          /\ trace (snd m') =
             trace h
               ++ [LiveConnect t0 topic;
                   ConsoleWarn "Connection failed, retrying" 1000 3;
                   SetTimeout 1000; Elapsed 1000;
                   LiveConnect (S t0) topic;
                   ConsoleWarn "Connection failed, retrying" 2000 2;
                   SetTimeout 2000; Elapsed 2000;
                   LiveConnect (S (S t0)) topic;
                   ConsoleWarn "Connection failed, retrying" 4000 1;
                   SetTimeout 4000; Elapsed 4000;
                   LiveConnect (S (S (S t0))) topic])
  /\ (forall due err h,
        settle_wait (W_timeout due) err h =
        if due <=? clock h then Some (Fulfilled O, h) else None).
Proof.
  split; [|split; [|split]].
  - intros. apply (connectWithRetry_bounded topic onError 3 1000).
  - intros. apply connectWithRetry_third_attempt.
  - intros. apply connectWithRetry_exhausted.
  - intros. destruct err; reflexivity.
Qed.

End Retry.

Section StartFailure.

Lemma restartable_idle s h q : idle s -> restartable s h q.
Proof.
  intros Hc topic onError.
  destruct (startSession_succeeds topic onError s h q Hc)
    as (s' & h' & fx & Hrun & H1 & H2 & H3 & H4 & H5 & H6 & _ & H8 & H9).
  exists s', h', fx. rewrite H2, H3, H4, H5, H6.
  repeat split; auto; discriminate.
Qed.

(** C4, as the specification states it, fails: when the microphone is
    denied, [onError] is called while both audio contexts are still open;
    they are closed only afterwards. *)
Lemma onError_precedes_release :
  exists sys,
    run (boot running)
      [E_startSession "Photosynthesis" true; E_settle O (Some NotAllowedError)]
    = Some sys
    /\ trace (sys_host sys) =
       [NewAudioContext 0 16000; NewAudioContext 1 24000; GetUserMedia;
        ConsoleError "Failed to start live session after retries:"
          NotAllowedError;
        OnError NotAllowedError; Close 0; Close 1]
    /\ rolled_back_at_report 0 (trace (sys_host sys)) = false.
Proof. eexists. split; [reflexivity|]. split; reflexivity. Qed.

(** C4, amended.  When a call of [startSession] that runs alone fails on a
    service that holds nothing, because the microphone is denied or because
    four connection attempts fail, the error is logged, [onError] is called
    if it was given, and then [stopSession] releases what the call had
    acquired: both audio contexts are closed and the tracks of the
    microphone stream, if it was granted, are stopped.  The call ends
    without throwing, every resource field is null again, [isConnected] is
    false and the cursor is 0, and from that state a later [startSession]
    can succeed.  The call runs alone when no other call of a method of
    the service runs between its start and its end.  Calls that overlap
    are not covered: on a new service, when a second [startSession] starts
    while the first waits for the microphone and both requests are denied,
    the first failure closes the contexts of the second call, and the
    contexts of the first call are left open. *)
Theorem startSession_failure_reports_then_releases topic onError s h q :
  idle s ->
  let c0 := length (contexts h) in
  let st := length (streams h) in
  (forall e,
     exists s' h',
       drive (startSession topic onError) (resumes h ++ [Some e]) (s, h) q
       = ((s', h'), q, Done tt)
       /\ trace h' =
          trace h ++ acquisition h ++ report onError e
            ++ [Close c0; Close (S c0)]
       /\ ctx_state_at h' c0 = Some closed
       /\ ctx_state_at h' (S c0) = Some closed
       /\ idle s' /\ restartable s' h' q)
  /\ (forall e1 e2 e3 e,
        exists s' h',
          drive (startSession topic onError)
            (resumes h ++ [None; Some e1; None; Some e2; None; Some e3; None;
                           Some e]) (s, h) q
          = ((s', h'), q, Done tt)
          /\ trace h' =
             trace h ++ acquisition h ++ exhaustion h topic
               ++ report onError e ++ [TrackStop st; Close c0; Close (S c0)]
          /\ ctx_state_at h' c0 = Some closed
          /\ ctx_state_at h' (S c0) = Some closed
          /\ nth_error (streams h') st = Some false
          /\ idle s' /\ restartable s' h' q)
  /\ (let overlap :=
         [E_startSession "Photosynthesis" true;
          E_startSession "Photosynthesis" true;
          E_settle O (Some NotAllowedError);
          E_settle O (Some NotAllowedError)] in
      trace_after (boot running) overlap
      = Some [NewAudioContext 0 16000; NewAudioContext 1 24000; GetUserMedia;
              NewAudioContext 2 16000; NewAudioContext 3 24000; GetUserMedia;
              ConsoleError "Failed to start live session after retries:"
                NotAllowedError;
              OnError NotAllowedError; Close 2; Close 3;
              ConsoleError "Failed to start live session after retries:"
                NotAllowedError;
              OnError NotAllowedError]
      /\ option_map (fun sys => map state (contexts (sys_host sys)))
           (run (boot running) overlap)
         = Some [running; running; closed; closed]
      /\ option_map (fun sys => released (sys_host sys))
           (run (boot running) overlap)
         = Some false).
Proof.
  intros Hidle c0 st. split; [|split].
  - intros e.
    destruct (startSession_mic_denied topic onError s h q e Hidle)
      as (h' & Hrun & Htr & Hc0 & Hc1 & _).
    exists (stopped s), h'. repeat split; auto.
    apply restartable_idle. repeat split.
  - intros e1 e2 e3 e.
    destruct (startSession_exhausted topic onError s h q e1 e2 e3 e Hidle)
      as (h' & Hrun & Htr & Hc0 & Hc1 & Hst).
    exists (set_sessionPromise (Some (promises h)) (stopped s)), h'.
    repeat split; auto.
    apply restartable_idle. repeat split.
  - cbv zeta. split; [vm_compute; reflexivity|].
    split; vm_compute; reflexivity.
Qed.

End StartFailure.

Lemma startSession_failure_reports_then_releases_witness :
  idle new_service
  /\ exists s' h',
       drive (startSession "Photosynthesis" true) [Some NotAllowedError]
         (new_service, new_host running) []
       = ((s', h'), [], Done tt)
       /\ trace h' =
          [NewAudioContext 0 16000; NewAudioContext 1 24000; GetUserMedia;
           ConsoleError "Failed to start live session after retries:"
             NotAllowedError;
           OnError NotAllowedError; Close 0; Close 1]
       /\ ctx_state_at h' 0 = Some closed
       /\ ctx_state_at h' 1 = Some closed
       /\ idle s' /\ restartable s' h' [].
Proof.
  assert (H : idle new_service) by (repeat split).
  split; [exact H|].
  exact (proj1 (startSession_failure_reports_then_releases
                  "Photosynthesis" true new_service (new_host running) [] H)
           NotAllowedError).
Defined.

Section StopSession.

(** C5, as the specification states it, fails: [stopSession] called while
    [connectWithRetry] waits out its first delay cancels nothing; when the
    delay has run out the suspended call is resumed and makes its second
    connection attempt. *)
Lemma stop_during_backoff_does_not_cancel :
  let backoff_begun :=
    [E_startSession "Photosynthesis" true; E_settle 0 None;
     E_settle 0 (Some (NetworkError 1))] in
  option_map (fun sys => length (pending sys))
    (run (boot running) backoff_begun) = Some 1%nat
  /\ option_map (fun sys => length (pending sys))
       (run (boot running) (backoff_begun ++ [E_stopSession])) = Some 1%nat
  /\ option_map attempts
       (trace_after (boot running) (backoff_begun ++ [E_stopSession]))
     = Some 1%nat
  /\ trace_after (boot running)
       (backoff_begun ++ [E_stopSession; E_elapse 1000; E_settle 0 None])
     = Some [NewAudioContext 0 16000; NewAudioContext 1 24000; GetUserMedia;
             LiveConnect 0 "Photosynthesis";
             ConsoleWarn "Connection failed, retrying" 1000 3;
             SetTimeout 1000;
             TrackStop 0; Close 0; Close 1; Elapsed 1000;
             LiveConnect 1 "Photosynthesis"].
Proof.
  cbv zeta. split; [vm_compute; reflexivity|].
  split; [vm_compute; reflexivity|].
  split; vm_compute; reflexivity.
Qed.

(** C5, amended.  [stopSession] never throws and cancels nothing that is
    pending: every suspended call and every timer stays in the event loop.
    A call of [connectWithRetry] suspended in its backoff delay, once
    resumed, calls [connect] again whatever happened to the service in the
    meantime.  After [stopSession] the output context is null, so
    [playAudioChunk] schedules nothing; [stopSession] starts and stops no
    source itself, but it closes the output context the earlier chunks
    were scheduled on. *)
Theorem stopSession_stops_playback_not_retries :
  (forall sys,
     exists sys', step sys E_stopSession = Some sys'
                  /\ pending sys' = pending sys)
  /\ (forall topic onError r delay e m q,
        exists m1 t k1 m2 due k2,
          exec (connectWithRetry topic onError (S r) delay) m q
          = (m1, q, Blocked (W_connect t) k1)
          /\ exec (k1 (Rejected e)) m1 q = (m2, q, Blocked (W_timeout due) k2)
          /\ forall m3 q3,
               exists m4 k3,
                 exec (k2 (Fulfilled O)) m3 q3
                 = (m4, q3, Blocked (W_connect (length (transports (snd m3))))
                              k3)
                 /\ trace (snd m4) =
                    trace (snd m3)
                      ++ [LiveConnect (length (transports (snd m3))) topic])
  /\ (forall s h q base64Audio,
        exec stopSession (s, h) q = ((stopped s, teardown s h), q, Done tt)
        /\ exec (playAudioChunk base64Audio) (stopped s, teardown s h) q
           = ((stopped s, teardown s h), q, Done tt))
  /\ (forall s h oc,
        outputContext s = Some oc ->
        (exists fx, trace (teardown s h) = trace h ++ fx ++ [Close oc])
        /\ sources (trace (teardown s h)) = sources (trace h)).
Proof.
  split; [|split; [|split]].
  - intros [[s h] q]. cbn [step]. unfold task. cbn [machine pending].
    rewrite stopSession_exec. eauto.
  - intros topic onError r delay e [s h] q.
    do 6 eexists. split; [cbn; reflexivity|].
    split; [cbn; reflexivity|].
    intros [s3 h3] q3. destruct r; cbn; do 2 eexists; split; reflexivity.
  - intros s h q base64Audio. split; [apply stopSession_exec|].
    now apply playAudioChunk_null.
  - intros s h oc Hoc. split.
    + now apply teardown_closes_output.
    + apply teardown_sources.
Qed.

End StopSession.

Lemma stopSession_stops_playback_not_retries_witness :
  outputContext (sys_this session_open) = Some 1%nat
  /\ (exists fx,
        trace (teardown (sys_this session_open) (sys_host session_open))
        = trace (sys_host session_open) ++ fx ++ [Close 1])
  /\ sources (trace (teardown (sys_this session_open)
                       (sys_host session_open)))
     = sources (trace (sys_host session_open)).
Proof.
  split; [reflexivity|].
  exact (proj2 (proj2 (proj2 stopSession_stops_playback_not_retries))
           (sys_this session_open) (sys_host session_open) 1%nat eq_refl).
Defined.

Section Activity.



End Activity.


Section MalformedFrame.

Lemma int16s_of_bytes_length bs :
  length (int16s_of_bytes bs) = Nat.div2 (length bs).
Proof.
  assert (H : forall l,
             length (int16s_of_bytes l) = Nat.div2 (length l)
             /\ forall a, length (int16s_of_bytes (a :: l))
                          = Nat.div2 (S (length l))).
  { induction l as [|b l [IH1 IH2]]; split; try reflexivity.
    - apply IH2.
    - intros a. cbn [int16s_of_bytes length Nat.div2]. now rewrite IH1. }
  apply H.
Qed.

Lemma b64ToPcm_odd text bytes :
  atob text = Ok bytes -> Nat.odd (length bytes) = true ->
  b64ToPcm text = Raise RangeError.
Proof.
  intros Ha Hodd. unfold b64ToPcm, Int16Array_of_buffer.
  rewrite Ha, length_map. unfold Nat.odd in Hodd.
  destruct (Nat.even (length bytes)); [discriminate|reflexivity].
Qed.

Lemma b64ToPcm_even text bytes :
  atob text = Ok bytes -> Nat.even (length bytes) = true ->
  exists samples,
    b64ToPcm text = Ok samples
    /\ length samples = Nat.div2 (length bytes).
Proof.
  intros Ha Hev. unfold b64ToPcm, Int16Array_of_buffer.
  rewrite Ha, length_map, Hev. eexists. split; [reflexivity|].
  now rewrite length_map, int16s_of_bytes_length, length_map.
Qed.

(** C7, as the specification states it, fails: a frame of one byte is
    dropped, but the service writes nothing to the console for it. *)
Lemma odd_frame_is_not_logged :
  atob "AA==" = Ok [0]
  /\ option_map (skipn 7)
       (trace_after session_open [E_message 0 (Some "AA=="%string)])
     = Some [OnAudioActivity true; Unhandled RangeError]
  /\ option_map console
       (trace_after session_open [E_message 0 (Some "AA=="%string)])
     = Some (console (trace (sys_host session_open))).
Proof.
  split; [vm_compute; reflexivity|].
  split; vm_compute; reflexivity.
Qed.

(** C7, amended.  A frame whose byte length is odd makes [b64ToPcm] throw
    a [RangeError], and for every even byte length [b64ToPcm] returns the
    samples, one for every two bytes.  The service does not catch or log
    the error: the handler of the message calls the activity callback with
    [true] and then rejects, and the rejection is handled by no one.
    Nothing is scheduled for the frame, no timer is set for it, no field
    of the service changes and the transports stay as they are, so the
    session goes on. *)
Theorem odd_frame_throws_and_is_dropped :
  (forall text bytes,
     atob text = Ok bytes -> Nat.odd (length bytes) = true ->
     b64ToPcm text = Raise RangeError)
  /\ (forall text bytes,
        atob text = Ok bytes -> Nat.even (length bytes) = true ->
        exists samples,
          b64ToPcm text = Ok samples
          /\ length samples = Nat.div2 (length bytes))
  /\ (forall sys oc ctx text bytes,
        outputContext (sys_this sys) = Some oc ->
        nth_error (contexts (sys_host sys)) oc = Some ctx ->
        state ctx = running ->
        atob text = Ok bytes -> Nat.odd (length bytes) = true ->
        let sys' := task (onmessage (Some text)) sys in
        sys_this sys' = sys_this sys
        /\ pending sys' = pending sys
        /\ trace (sys_host sys') =
           trace (sys_host sys) ++ [OnAudioActivity true; Unhandled RangeError]
        /\ console (trace (sys_host sys')) = console (trace (sys_host sys))
        /\ sources (trace (sys_host sys')) = sources (trace (sys_host sys))
        /\ transports (sys_host sys') = transports (sys_host sys)).
Proof.
  split; [|split].
  - apply b64ToPcm_odd.
  - apply b64ToPcm_even.
  - intros sys oc ctx text bytes Hoc Hctx Hst Ha Hodd sys'.
    pose proof (b64ToPcm_odd text bytes Ha Hodd) as Hdec.
    subst sys'.
    rewrite (onmessage_malformed sys oc ctx text RangeError Hoc Hctx Hst Hdec).
    unfold sys_this, sys_host, console. cbn.
    rewrite <- app_assoc, sources_app, filter_app. cbn.
    now rewrite !app_nil_r.
Qed.

End MalformedFrame.

Lemma odd_frame_throws_and_is_dropped_witness :
  atob "AA==" = Ok [0] /\ Nat.odd (length [0]) = true
  /\ b64ToPcm "AA==" = Raise RangeError.
Proof.
  split; [reflexivity|]. split; [reflexivity|].
  exact (proj1 odd_frame_throws_and_is_dropped "AA=="%string [0]
           eq_refl eq_refl).
Defined.

Section Guard.

(** C8, as the specification states it, fails: the guard of [startSession]
    is the flag [isConnected] alone, and [stopSession] closes no transport.
    After start, stop and start again, two transports are open; so are
    they when [startSession] is called twice before the first connection
    has opened. *)
Lemma two_handles_open :
  option_map (fun sys => open_handles (sys_host sys))
    (run session_open
       [E_stopSession; E_startSession "Photosynthesis" true; E_settle 0 None;
        E_open 1; E_settle 0 None]) = Some 2%nat
  /\ option_map (fun sys => open_handles (sys_host sys))
       (run (boot running)
          [E_startSession "Photosynthesis" true;
           E_startSession "Photosynthesis" true;
           E_settle 0 None; E_settle 0 None; E_open 0; E_open 1])
     = Some 2%nat.
Proof. split; vm_compute; reflexivity. Qed.

(** C8, amended.  [startSession] called while [isConnected] is true is a
    no-op: it returns at once, creates no audio context, asks for no
    microphone, opens no transport, and leaves the service, the host and
    everything pending as they are. *)
Theorem startSession_connected_noop sys topic onError :
  isConnected (sys_this sys) = true ->
  step sys (E_startSession topic onError) = Some sys
  /\ exec (startSession topic onError) (machine sys) (pending sys)
     = (machine sys, pending sys, Done tt).
Proof.
  destruct sys as [[s h] q]. unfold sys_this. cbn [machine pending fst].
  intros Hc.
  assert (H : exec (startSession topic onError) (s, h) q = ((s, h), q, Done tt)).
  { unfold startSession. cbn. now rewrite Hc. }
  split; [|exact H].
  cbn [step]. unfold task. cbn [machine pending]. now rewrite H.
Qed.

End Guard.

Lemma startSession_connected_noop_witness :
  isConnected (sys_this session_open) = true
  /\ step session_open (E_startSession "Photosynthesis" true)
     = Some session_open
  /\ exec (startSession "Photosynthesis" true) (machine session_open)
       (pending session_open)
     = (machine session_open, pending session_open, Done tt).
Proof.
  split; [reflexivity|].
  exact (startSession_connected_noop session_open "Photosynthesis"%string
           true eq_refl).
Defined.

Section Idempotence.

(** C9.  [stopSession] never throws.  Called on a service that holds no
    resource and is not connected it leaves the service, the host and
    everything pending unchanged; called twice in a row, the second call
    changes nothing. *)
Theorem stopSession_idempotent :
  (forall sys, idle (sys_this sys) -> step sys E_stopSession = Some sys)
  /\ (forall sys,
        exists sys1,
          step sys E_stopSession = Some sys1
          /\ step sys1 E_stopSession = Some sys1)
  /\ (forall m q, exists m', exec stopSession m q = (m', q, Done tt)).
Proof.
  split; [|split].
  - intros [[s h] q]. unfold sys_this. cbn [machine fst]. intros Hidle.
    cbn [step]. unfold task. cbn [machine pending].
    now rewrite stopSession_exec, (stopped_idle s Hidle),
      (teardown_idle s h Hidle).
  - intros [[s h] q]. eexists. cbn [step]. unfold task. cbn [machine pending].
    rewrite stopSession_exec. split; [reflexivity|].
    cbn [machine pending]. now rewrite stopSession_exec.
  - intros [s h] q. rewrite stopSession_exec. eauto.
Qed.

End Idempotence.

Lemma stopSession_idempotent_witness :
  idle (sys_this (boot running))
  /\ step (boot running) E_stopSession = Some (boot running).
Proof.
  assert (H : idle (sys_this (boot running))) by (repeat split).
  split; [exact H|].
  exact (proj1 stopSession_idempotent (boot running) H).
Defined.

Section LateChunk.

(** C10.  While the output context is null, as it is in a new service and
    after every [stopSession], [playAudioChunk] returns at once: it
    schedules nothing, throws nothing and changes nothing.  A message that
    arrives then starts no source and leaves every field of the service
    as it is. *)
Theorem late_chunk_discarded :
  (forall s h q base64Audio,
     outputContext s = None ->
     exec (playAudioChunk base64Audio) (s, h) q = ((s, h), q, Done tt))
  /\ outputContext new_service = None
  /\ (forall s h q,
        exists s' h',
          exec stopSession (s, h) q = ((s', h'), q, Done tt)
          /\ outputContext s' = None)
  /\ (forall sys message,
        outputContext (sys_this sys) = None ->
        let sys' := task (onmessage message) sys in
        sys_this sys' = sys_this sys
        /\ sources (trace (sys_host sys')) = sources (trace (sys_host sys))
        /\ filter (fun e => match e with Unhandled _ => true | _ => false end)
             (trace (sys_host sys'))
           = filter (fun e => match e with Unhandled _ => true | _ => false end)
               (trace (sys_host sys))).
Proof.
  split; [|split; [|split]].
  - intros. now apply playAudioChunk_null.
  - reflexivity.
  - intros s h q. rewrite stopSession_exec. eauto.
  - intros sys message Hoc sys'. subst sys'.
    destruct message as [base64Audio|].
    2:{ destruct sys as [[s h] q]. cbn. auto. }
    destruct (String.length base64Audio =? 0)%nat eqn:Hne.
    + destruct sys as [[s h] q]. unfold task, onmessage.
      cbn [machine pending]. rewrite Hne. cbn. auto.
    + rewrite (onmessage_null sys base64Audio Hoc Hne).
      unfold sys_this, sys_host. cbn.
      rewrite <- app_assoc, sources_app, filter_app. cbn.
      now rewrite !app_nil_r.
Qed.

End LateChunk.

Lemma late_chunk_discarded_witness :
  outputContext new_service = None
  /\ exec (playAudioChunk "AAABAA==") (new_service, new_host running) []
     = ((new_service, new_host running), [], Done tt).
Proof.
  split; [reflexivity|].
  exact (proj1 late_chunk_discarded new_service (new_host running) []
           "AAABAA=="%string eq_refl).
Defined.

(* ================================================================== *)
(** * Further properties of the code *)
(* ================================================================== *)

Section CodecMore.

Local Open Scope Q_scope.

(** X1.  [pcmToB64] never throws, whatever the samples are, also outside
    [-1, 1]; [b64ToPcm] accepts the text it returns and gives back one
    sample for each sample that was encoded, namely the 16-bit integer the
    sample was stored as, divided by 32768. *)
Theorem pcmToB64_total (s : list Q) :
  exists text out,
    pcmToB64 s = Ok text /\ b64ToPcm text = Ok out
    /\ out = map (fun x => inject_Z (quantize x) / 32768)%Q s
    /\ length out = length s.
Proof.
  destruct (b64ToPcm_pcmToB64 s) as (text & Henc & Hdec).
  exists text, (map requantize s). repeat split; auto. apply length_map.
Qed.

Lemma clamp_high x : 1 <= x -> clamp x = 1.
Proof.
  intros H. unfold clamp.
  destruct (Qltb_spec x 1) as [H1|H1]; [lra|]. reflexivity.
Qed.

Lemma clamp_low x : x < -1 -> clamp x = -1.
Proof.
  intros H. unfold clamp.
  destruct (Qltb_spec x 1) as [H1|H1]; [|lra].
  destruct (Qltb_spec x (-1)) as [H2|H2]; [reflexivity|lra].
Qed.

Lemma clamp_mid x : -1 <= x < 1 -> clamp x = x.
Proof.
  intros [Hl Hu]. unfold clamp.
  destruct (Qltb_spec x 1) as [H1|H1]; [|lra].
  destruct (Qltb_spec x (-1)) as [H2|H2]; [lra|reflexivity].
Qed.

Lemma clamp_range x : -1 <= clamp x <= 1.
Proof.
  destruct (Qlt_le_dec x (-1)) as [H|H].
  - rewrite (clamp_low x H). lra.
  - destruct (Qlt_le_dec x 1) as [H1|H1].
    + rewrite (clamp_mid x (conj H H1)). lra.
    + rewrite (clamp_high x H1). lra.
Qed.

Lemma clamp_idem x : clamp (clamp x) = clamp x.
Proof.
  destruct (Qlt_le_dec x (-1)) as [H|H].
  - rewrite (clamp_low x H). reflexivity.
  - destruct (Qlt_le_dec x 1) as [H1|H1].
    + rewrite (clamp_mid x (conj H H1)). now apply clamp_mid.
    + rewrite (clamp_high x H1). reflexivity.
Qed.

Lemma clamp_mono x y : x <= y -> clamp x <= clamp y.
Proof.
  intros Hxy.
  destruct (Qlt_le_dec x (-1)) as [Hx|Hx].
  - rewrite (clamp_low x Hx). apply clamp_range.
  - destruct (Qlt_le_dec y 1) as [Hy|Hy].
    + rewrite (clamp_mid x), (clamp_mid y); [exact Hxy|lra|lra].
    + rewrite (clamp_high y Hy). apply clamp_range.
Qed.

Lemma quantize_clamp x : quantize (clamp x) = quantize x.
Proof. unfold quantize. now rewrite clamp_idem. Qed.

Lemma scaled_range x : -32768 <= scaled x <= 32767.
Proof.
  unfold scaled. pose proof (clamp_range x) as [Hl Hu].
  destruct (Qltb_spec (clamp x) 0) as [H|H]; split; lra.
Qed.

Lemma Qtrunc_int16 q : -32768 <= q <= 32767 -> int16 (Qtrunc q).
Proof.
  intros [Hl Hu]. unfold int16.
  destruct (Qlt_le_dec q 0) as [H|H].
  - rewrite Qtrunc_nonpos by lra.
    assert (H1 : (Qceiling (inject_Z (-32768)) <= Qceiling q)%Z).
    { apply Qceiling_resp_le. change (inject_Z (-32768)) with (-32768). lra. }
    assert (H2 : (Qceiling q <= Qceiling (inject_Z 0))%Z).
    { apply Qceiling_resp_le. change (inject_Z 0) with 0. lra. }
    rewrite Qceiling_Z in H1, H2. lia.
  - rewrite Qtrunc_nonneg by lra.
    assert (H1 : (Qfloor (inject_Z 0) <= Qfloor q)%Z).
    { apply Qfloor_resp_le. change (inject_Z 0) with 0. lra. }
    assert (H2 : (Qfloor q <= Qfloor (inject_Z 32767))%Z).
    { apply Qfloor_resp_le. change (inject_Z 32767) with 32767. lra. }
    rewrite Qfloor_Z in H1, H2. lia.
Qed.

(** X2.  Samples outside [-1, 1] saturate: every sample of 1 or more is
    encoded as 32767 and every sample of -1 or less as -32768.  The store
    into the [Int16Array] never wraps around: the number assigned, the
    clamped sample times 0x8000 or 0x7FFF, truncates to an integer between
    -32768 and 32767, and that integer is what is stored. *)
Theorem quantize_saturates x :
  (1 <= x -> quantize x = 32767%Z)
  /\ (x <= -1 -> quantize x = (-32768)%Z)
  /\ int16 (Qtrunc (scaled x))
  /\ quantize x = Qtrunc (scaled x).
Proof.
  split; [|split; [|split]].
  - intros H. rewrite <- quantize_clamp, (clamp_high x H). reflexivity.
  - intros H. destruct (Qlt_le_dec x (-1)) as [H1|H1].
    + rewrite <- quantize_clamp, (clamp_low x H1). reflexivity.
    + rewrite quantize_neg by lra.
      rewrite (Qceiling_comp _ (inject_Z (-32768))).
      * apply Qceiling_Z.
      * assert (Hx : x == -1) by lra. rewrite Hx. reflexivity.
  - apply Qtrunc_int16, scaled_range.
  - change (quantize x) with (ToInt16 (scaled x)). unfold ToInt16.
    apply signed16_mod_id, Qtrunc_int16, scaled_range.
Qed.

Lemma quantize_mono_range a b :
  -1 <= a <= 1 -> -1 <= b <= 1 -> a <= b ->
  (quantize a <= quantize b)%Z.
Proof.
  intros Ha Hb Hab.
  destruct (Qlt_le_dec a 0) as [Ha0|Ha0];
    destruct (Qlt_le_dec b 0) as [Hb0|Hb0].
  - rewrite !quantize_neg by lra. apply Qceiling_resp_le. lra.
  - rewrite quantize_neg, quantize_nonneg by lra.
    assert (H1 : (Qceiling (a * 32768) <= Qceiling (inject_Z 0))%Z).
    { apply Qceiling_resp_le. change (inject_Z 0) with 0. lra. }
    assert (H2 : (Qfloor (inject_Z 0) <= Qfloor (b * 32767))%Z).
    { apply Qfloor_resp_le. change (inject_Z 0) with 0. lra. }
    rewrite Qceiling_Z in H1. rewrite Qfloor_Z in H2. lia.
  - lra.
  - rewrite !quantize_nonneg by lra. apply Qfloor_resp_le. lra.
Qed.

(** X3.  Quantization keeps the order of samples: a larger sample is never
    encoded as a smaller integer. *)
Theorem quantize_monotone x y :
  x <= y -> (quantize x <= quantize y)%Z.
Proof.
  intros H. rewrite <- (quantize_clamp x), <- (quantize_clamp y).
  apply quantize_mono_range; try apply clamp_range. now apply clamp_mono.
Qed.

Lemma inject_Z_div_range v :
  int16 v -> -1 <= inject_Z v / 32768 <= 32767 # 32768.
Proof.
  unfold int16. intros [Hl Hu].
  rewrite Zle_Qle in Hl, Hu.
  change (inject_Z (-32768)) with (-32768) in Hl.
  change (inject_Z 32767) with 32767 in Hu.
  unfold Qdiv. change (/ 32768) with (1 # 32768).
  set (t := inject_Z v) in *. clearbody t. split; lra.
Qed.

Lemma int16s_of_bytes_range bs :
  Forall octet bs -> Forall int16 (int16s_of_bytes bs).
Proof.
  assert (H : forall l, Forall octet l ->
               Forall int16 (int16s_of_bytes l)
               /\ forall a, octet a -> Forall int16 (int16s_of_bytes (a :: l))).
  { induction l as [|b l IH]; intros Hl.
    - split; [constructor|]. intros a _. constructor.
    - apply Forall_cons_iff in Hl as [Hb Hl].
      destruct (IH Hl) as [IH1 IH2]. split; [now apply IH2|].
      intros a Ha. cbn [int16s_of_bytes]. constructor; [|exact IH1].
      unfold octet in *. unfold int16, signed16.
      destruct (Z.leb_spec 32768 (a + 256 * b)); lia. }
  intros Hbs. now apply H.
Qed.

Lemma map_mod_octet bs : Forall octet (map (fun c => (c mod 256)%Z) bs).
Proof.
  apply Forall_map, Forall_forall. intros x _. unfold octet.
  apply Z.mod_pos_bound. lia.
Qed.

(** X4.  Whatever text [b64ToPcm] decodes, every sample it returns lies
    between -1 and 32767/32768. *)
Theorem b64ToPcm_range text samples :
  b64ToPcm text = Ok samples ->
  Forall (fun y => -1 <= y <= 32767 # 32768) samples.
Proof.
  unfold b64ToPcm, Int16Array_of_buffer.
  destruct (atob text) as [binary|e]; [|discriminate].
  destruct (Nat.even (length (map (fun c => (c mod 256)%Z) binary)));
    [|discriminate].
  intros H. injection H as <-.
  apply Forall_map.
  pose proof (int16s_of_bytes_range _ (map_mod_octet binary)) as Hr.
  revert Hr. apply Forall_impl. intros v Hv. now apply inject_Z_div_range.
Qed.

(** X5.  Encoding a decoded sample does not always give the integer it was
    decoded from: an integer that is zero or negative comes back as
    itself, a positive one comes back one smaller. *)
Theorem requantize_drift v :
  int16 v ->
  quantize (inject_Z v / 32768) = if (0 <? v)%Z then (v - 1)%Z else v.
Proof.
  intros Hv. pose proof (inject_Z_div_range v Hv) as [Hl Hu].
  unfold int16 in Hv.
  assert (Hmul : inject_Z v / 32768 * 32768 == inject_Z v) by field.
  destruct (Z.ltb_spec 0 v) as [Hpos|Hneg].
  - assert (H0 : 0 <= inject_Z v / 32768).
    { apply Qle_shift_div_l; [reflexivity|]. rewrite Qmult_0_l.
      change 0 with (inject_Z 0). rewrite <- Zle_Qle. lia. }
    rewrite quantize_nonneg by (split; [exact H0|lra]).
    rewrite (Qfloor_comp _ (inject_Z (v * 32767) / inject_Z 32768)).
    + rewrite <- Zdiv_Qdiv. euclid.
    + rewrite inject_Z_mult. change (inject_Z 32767) with 32767.
      change (inject_Z 32768) with 32768. field.
  - destruct (Z.eq_dec v 0) as [->|Hnz]; [reflexivity|].
    assert (H0 : inject_Z v / 32768 < 0).
    { apply Qlt_shift_div_r; [reflexivity|]. rewrite Qmult_0_l.
      change 0 with (inject_Z 0). rewrite <- Zlt_Qlt. lia. }
    rewrite quantize_neg by (split; [exact Hl|exact H0]).
    rewrite (Qceiling_comp _ (inject_Z v)) by exact Hmul.
    apply Qceiling_Z.
Qed.

End CodecMore.

Lemma quantize_saturates_witness :
  (1 <= 5)%Q /\ quantize 5 = 32767.
Proof.
  split; [unfold Qle; cbn; lia|].
  apply (proj1 (quantize_saturates 5)). unfold Qle; cbn; lia.
Defined.

Lemma quantize_monotone_witness :
  ((1 # 3) <= (1 # 2))%Q /\ quantize (1 # 3) <= quantize (1 # 2).
Proof.
  split; [unfold Qle; cbn; lia|].
  apply quantize_monotone. unfold Qle; cbn; lia.
Defined.

Lemma b64ToPcm_range_witness :
  b64ToPcm "/38AgA==" = Ok [(32767 # 32768)%Q; (-32768 # 32768)%Q]
  /\ Forall (fun y => (-1 <= y <= 32767 # 32768)%Q)
       [(32767 # 32768)%Q; (-32768 # 32768)%Q].
Proof.
  split; [vm_compute; reflexivity|].
  apply (b64ToPcm_range "/38AgA=="). vm_compute. reflexivity.
Defined.

Lemma requantize_drift_witness :
  int16 100 /\ quantize (inject_Z 100 / 32768) = 99.
Proof.
  split; [unfold int16; lia|].
  apply (requantize_drift 100). unfold int16. lia.
Defined.

Section CaptureGraph.

Lemma update_snoc {X} (f : X -> X) (l : list X) x r :
  update (length l) f (l ++ x :: r) = l ++ f x :: r.
Proof. induction l as [|y l IH]; cbn; [reflexivity|now rewrite IH]. Qed.

Lemma nodes_connected (l : list bool) :
  update (S (length l)) (fun _ => true)
    (update (length l) (fun _ => true) ((l ++ [false]) ++ [false]))
  = l ++ [true; true].
Proof.
  rewrite <- app_assoc. cbn [app]. rewrite update_snoc.
  change (l ++ true :: [false]) with (l ++ [true] ++ [false]).
  rewrite app_assoc.
  replace (S (length l)) with (length (l ++ [true]))
    by (rewrite length_app; cbn; lia).
  rewrite update_snoc. now rewrite <- app_assoc.
Qed.

(** X6.  [startAudioInput] builds nothing unless the input context, the
    microphone stream and the session promise are all set; when they are,
    it creates exactly two graph nodes, the source and then the processor,
    stores them in [inputSource] and [processor] and leaves both
    connected. *)
Theorem startAudioInput_guard s h q :
  (inputContext s = None \/ currentStream s = None \/ sessionPromise s = None
   -> exec startAudioInput (s, h) q = ((s, h), q, Done tt))
  /\ (inputContext s <> None -> currentStream s <> None ->
      sessionPromise s <> None ->
      let n := length (nodes h) in
      exec startAudioInput (s, h) q =
      ((set_processor (Some (S n)) (set_inputSource (Some n) s),
        set_nodes (nodes h ++ [true; true])
          (emit (CreateNode (S n)) (emit (CreateNode n) h))),
       q, Done tt)).
Proof.
  destruct s as [ic oc src proc str nst conn sp]. cbn [inputContext
    currentStream sessionPromise]. split.
  - intros H. destruct ic, str, sp; try reflexivity;
      destruct H as [H|[H|H]]; discriminate.
  - intros Hic Hstr Hsp.
    destruct ic as [ic|]; [|congruence].
    destruct str as [str|]; [|congruence].
    destruct sp as [sp|]; [|congruence].
    cbn. rewrite length_app. cbn [length].
    replace (length (nodes h) + 1)%nat with (S (length (nodes h))) by lia.
    rewrite nodes_connected. reflexivity.
Qed.

End CaptureGraph.

Lemma startAudioInput_guard_witness :
  let s := mkService (Some O) (Some 1%nat) None None (Some O) 0%float true
             (Some O) in
  let h := new_host running in
  exec startAudioInput (s, h) [] =
  ((mkService (Some O) (Some 1%nat) (Some O) (Some 1%nat) (Some O) 0%float true
      (Some O),
    set_nodes [true; true] (emit (CreateNode 1) (emit (CreateNode 0) h))),
   [], Done tt).
Proof.
  intros s h.
  apply (proj2 (startAudioInput_guard s h [])); discriminate.
Defined.

Section Release.

(** X7.  [stopSession] on a service that holds all five resources releases
    them in this order: the source node and the processor node are
    disconnected, the tracks of the stream are stopped, the input context
    and then the output context are closed.  It returns normally, resets
    every field but [sessionPromise], and touches neither the transports
    nor what is waiting in the event loop. *)
Theorem stopSession_release_order ic oc src proc str nst conn sp h q :
  exists h',
    exec stopSession
      (mkService (Some ic) (Some oc) (Some src) (Some proc) (Some str) nst
         conn sp, h) q
    = ((mkService None None None None None 0%float false sp, h'), q, Done tt)
    /\ trace h' =
       trace h ++ [Disconnect src; Disconnect proc; TrackStop str;
                   Close ic; Close oc]
    /\ transports h' = transports h
    /\ clock h' = clock h.
Proof.
  rewrite stopSession_exec. eexists. split; [reflexivity|].
  cbn. rewrite <- !app_assoc. auto.
Qed.

(** X8.  A connection that opens after [stopSession] marks the service
    connected although it holds no resource: [onopen] sets [isConnected]
    and [startAudioInput] builds no node.  A call of [startSession] in that
    state does nothing. *)
Theorem onopen_after_stopSession s h q topic onError :
  exists s' h',
    exec (stopSession ;; onopen)%prog (s, h) q = ((s', h'), q, Done tt)
    /\ isConnected s' = true
    /\ inputContext s' = None /\ outputContext s' = None
    /\ currentStream s' = None
    /\ inputSource s' = None /\ processor s' = None
    /\ length (nodes h') = length (nodes h)
    /\ exec (startSession topic onError) (s', h') q = ((s', h'), q, Done tt).
Proof.
  rewrite exec_bind, stopSession_exec.
  do 2 eexists. split; [reflexivity|]. cbn. repeat split; auto.
  unfold teardown, for_handle, host_disconnect, host_stop_tracks, host_close.
  destruct s as [ic oc src proc str nst conn sp].
  destruct ic, oc, src, proc, str; cbn; rewrite ?update_length; reflexivity.
Qed.

End Release.

Section SuspendedOutput.

Local Open Scope float_scope.

(** X9.  When the output context is suspended, [playAudioChunk] asks the
    context to resume and waits; it schedules nothing before the context
    has answered.  If the resume is rejected the call fails with that
    error.  If [stopSession] has run in the meantime, so that
    [outputContext] is null, a chunk that decodes fails with a TypeError
    and nothing is scheduled.  Otherwise the chunk is scheduled on the
    context the field holds then, at [max(now, nextStartTime)]. *)
Theorem playAudioChunk_suspended s h q oc ctx base64Audio samples :
  outputContext s = Some oc ->
  nth_error (contexts h) oc = Some ctx ->
  state ctx = suspended ->
  b64ToPcm base64Audio = Ok samples ->
  exists k,
    exec (playAudioChunk base64Audio) (s, h) q
    = ((s, emit (Resume oc) h), q, Blocked (W_resume oc) k)
    /\ (forall e m' q', exec (k (Rejected e)) m' q' = (m', q', Failed e))
    /\ (forall v s' h' q',
          outputContext s' = None ->
          exec (k (Fulfilled v)) (s', h') q' = ((s', h'), q', Failed TypeError))
    /\ (forall v s' h' q' oc' ctx',
          outputContext s' = Some oc' ->
          nth_error (contexts h') oc' = Some ctx' ->
          samples <> [] ->
          let start := start_at (nextStartTime s') (currentTime ctx') in
          let d := duration_of (length samples) in
          exec (k (Fulfilled v)) (s', h') q' =
          ((set_nextStartTime (start + d) s',
            emit (SourceStart oc' start d) h'), q', Done tt)).
Proof.
  intros Hoc Hctx Hst Hdec. unfold playAudioChunk. cbn.
  rewrite Hoc. cbn. rewrite Hctx, Hst. cbn.
  eexists. split; [reflexivity|]. cbn. rewrite Hdec. cbn.
  split; [reflexivity|]. split.
  - intros v s' h' q' Hnone. now rewrite Hnone.
  - intros v s' h' q' oc' ctx' Hoc' Hctx' Hne.
    rewrite Hoc'. cbn. destruct samples as [|x l]; [congruence|].
    cbn. rewrite Hctx'. cbn.
    unfold start_at, duration_of.
    destruct (nextStartTime s' <? currentTime ctx'); reflexivity.
Qed.

End SuspendedOutput.

Lemma playAudioChunk_suspended_witness :
  let s := mkService None (Some O) None None None 0%float true None in
  let h := set_contexts [mkCtx OUTPUT_SAMPLE_RATE suspended 0%float]
             (new_host suspended) in
  exists k,
    exec (playAudioChunk "AAABAA==") (s, h) []
    = ((s, emit (Resume 0) h), [], Blocked (W_resume 0) k)
    /\ exec (k (Fulfilled 0)) (stopped s, h) []
       = ((stopped s, h), [], Failed TypeError).
Proof.
  intros s h.
  destruct (playAudioChunk_suspended s h [] O
              (mkCtx OUTPUT_SAMPLE_RATE suspended 0%float) "AAABAA=="
              [(0 # 32768)%Q; (1 # 32768)%Q] eq_refl eq_refl eq_refl)
    as (k & Hk & _ & Hnull & _).
  - vm_compute. reflexivity.
  - exists k. split; [exact Hk|]. apply Hnull. reflexivity.
Defined.

Section RetryBudget.

Lemma connectWithRetry_gives_up topic onError retries :
  forall delay errors last s h q,
    length errors = retries -> 0 < delay ->
    exists h' fx,
      drive (connectWithRetry topic onError retries delay)
        (refusals errors last) (s, h) q
      = ((s, h'), q, Failed last)
      /\ trace h' = trace h ++ fx
      /\ attempts fx = S retries
      /\ delays fx = backoff retries delay
      /\ waited fx = backoff retries delay.
Proof.
  induction retries as [|r IH]; intros delay errors last s h q Hlen Hpos.
  - destruct errors; [|discriminate]. unfold refusals. cbn.
    unfold host_answer. cbn.
    do 2 eexists. split; [reflexivity|]. cbn. auto.
  - destruct errors as [|e errors]; [discriminate|].
    injection Hlen as Hlen.
    unfold refusals. cbn [flat_map app].
    fold (refusals errors last).
    cbn -[host_answer Z.add Z.mul refusals].
    unfold host_answer at 1.
    cbn -[host_answer Z.add Z.mul refusals].
    rewrite host_answer_timeout by (cbn; lia).
    cbn -[host_answer Z.add Z.mul refusals].
    match goal with
    | |- context [drive _ (refusals errors last) (s, ?h0) q] =>
        destruct (IH (delay * 2) errors last s h0 q Hlen ltac:(lia))
          as (h' & fx & Hrun & Htr & Ha & Hd & Hw)
    end.
    rewrite Hrun. do 2 eexists. split; [reflexivity|].
    rewrite Htr. cbn. rewrite <- !app_assoc. split; [reflexivity|].
    cbn. unfold attempts, delays, waited in *. cbn.
    rewrite Ha, Hd, Hw.
    replace (clock h + delay - clock h) with delay by lia. auto.
Qed.


End RetryBudget.


Section Reconnect.

Lemma onopen_rebuilds ic oc src proc str nst conn sp h q :
  exec onopen
    (mkService (Some ic) (Some oc) src proc (Some str) nst conn (Some sp), h)
    q =
  ((mkService (Some ic) (Some oc) (Some (length (nodes h)))
      (Some (S (length (nodes h)))) (Some str) nst true (Some sp),
    set_nodes
      (update (S (length (nodes h))) (fun _ => true)
         (update (length (nodes h)) (fun _ => true)
            ((nodes h ++ [false]) ++ [false])))
      (emit (CreateNode (S (length (nodes h))))
         (emit (CreateNode (length (nodes h)))
            (emit (ConsoleLog "Gemini Live Session Opened") h)))),
   q, Done tt).
Proof.
  unfold onopen. cbn. rewrite length_app. cbn [length].
  now replace (length (nodes h) + 1)%nat with (S (length (nodes h))) by lia.
Qed.

Ltac connect_step :=
  lazymatch goal with
  | |- context [@drive ?A ?p (None :: ?rest) (?s, ?h) ?q] =>
      let p' := eval hnf in p in
      lazymatch p' with
      | Await (W_connect _) _ =>
          let s' := eval cbv [set_inputContext set_outputContext
                              set_currentStream set_sessionPromise
                              inputContext outputContext inputSource processor
                              currentStream nextStartTime isConnected
                              sessionPromise] in s in
          change (@drive A p (None :: rest) (s, h) q)
            with (@drive A p' (None :: rest) (s', h) q);
          rewrite (drive_Await _ _ _ _ _ _ _ _ _
                     (host_answer_opened _ _ _ _ _ _
                        (onopen_rebuilds _ _ _ _ _ _ _ _ _ _)));
          tidy
      end
  end.

Lemma nth_error_older {X} (l : list X) a b c :
  (c < length l)%nat ->
  nth_error ((l ++ [a]) ++ [b]) c = nth_error l c.
Proof.
  intros H. rewrite <- app_assoc. now apply nth_error_app1.
Qed.

Lemma teardown_contexts_other s h c :
  inputContext s <> Some c -> outputContext s <> Some c ->
  nth_error (contexts (teardown s h)) c = nth_error (contexts h) c.
Proof.
  destruct s as [ic oc src proc str nst conn sp].
  cbn [inputContext outputContext].
  intros Hic Hoc. unfold teardown, for_handle.
  destruct ic as [ic|], oc as [oc|], src, proc, str; cbn -[update nth_error];
    rewrite ?nth_error_update_neq by congruence; reflexivity.
Qed.

Lemma startSession_again topic onError ic0 oc0 src proc str nst sp h q :
  exists s' h',
    drive (startSession topic onError) (resumes h ++ [None; None])
      (mkService ic0 oc0 src proc str nst false sp, h) q
    = ((s', h'), q, Done tt)
    /\ isConnected s' = true
    /\ inputContext s' = Some (length (contexts h))
    /\ outputContext s' = Some (S (length (contexts h)))
    /\ forall c, (c < length (contexts h))%nat ->
         nth_error (contexts h') c = nth_error (contexts h) c.
Proof.
  unfold resumes.
  destruct (autoplay h) eqn:Hauto; cbn [eq_state app];
    unfold startSession;
    repeat first [ connect_step | drive_step | progress lookup
                 | match goal with
                   | H : autoplay _ = _ |- _ => rewrite H
                   end ];
    (do 2 eexists; split; [reflexivity|]);
    cbn -[update nth_error]; norm_handles;
    do 3 (split; [reflexivity|]);
    intros c Hc; lookup; now apply nth_error_older.
Qed.

(** X11.  After the endpoint has closed the connection the service is
    marked not connected but still holds its audio contexts.  A call of
    [startSession] in that state, with the microphone granted and the
    connection opened, ends connected on two new contexts; it closes
    neither of the contexts it held, and no field refers to them any
    more, so a later [stopSession] leaves them as they are too. *)
Theorem startSession_drops_held_contexts topic onError s h q ic oc :
  isConnected s = false ->
  inputContext s = Some ic -> outputContext s = Some oc ->
  (ic < length (contexts h))%nat -> (oc < length (contexts h))%nat ->
  exists s' h',
    drive (startSession topic onError) (resumes h ++ [None; None]) (s, h) q
    = ((s', h'), q, Done tt)
    /\ isConnected s' = true
    /\ inputContext s' = Some (length (contexts h))
    /\ outputContext s' = Some (S (length (contexts h)))
    /\ nth_error (contexts h') ic = nth_error (contexts h) ic
    /\ nth_error (contexts h') oc = nth_error (contexts h) oc
    /\ exists h'',
         exec stopSession (s', h') q = ((stopped s', h''), q, Done tt)
         /\ nth_error (contexts h'') ic = nth_error (contexts h) ic
         /\ nth_error (contexts h'') oc = nth_error (contexts h) oc.
Proof.
  destruct s as [ic0 oc0 src proc str nst conn sp].
  cbn [isConnected inputContext outputContext].
  intros -> -> -> Hic Hoc.
  destruct (startSession_again topic onError (Some ic) (Some oc) src proc str
              nst sp h q) as (s' & h' & Hrun & Hconn & Hin & Hout & Hold).
  exists s', h'. split; [exact Hrun|].
  repeat (split; [auto; fail|]).
  exists (teardown s' h'). split; [apply stopSession_exec|].
  rewrite !teardown_contexts_other by (rewrite ?Hin, ?Hout; intros [= E]; lia).
  auto.
Qed.

End Reconnect.

(** A service whose connection was closed by the endpoint: it still holds
    the two contexts of the session. *)
Lemma startSession_drops_held_contexts_witness :
  let s := mkService (Some O) (Some 1%nat) None None None 0%float false
             None in
  let h := set_contexts [mkCtx INPUT_SAMPLE_RATE running 0%float;
                         mkCtx OUTPUT_SAMPLE_RATE running 0%float]
             (new_host running) in
  exists s' h',
    drive (startSession "Photosynthesis" true) (resumes h ++ [None; None])
      (s, h) []
    = ((s', h'), [], Done tt)
    /\ isConnected s' = true
    /\ inputContext s' = Some 2%nat
    /\ outputContext s' = Some 3%nat
    /\ nth_error (contexts h') 0
       = Some (mkCtx INPUT_SAMPLE_RATE running 0%float)
    /\ nth_error (contexts h') 1
       = Some (mkCtx OUTPUT_SAMPLE_RATE running 0%float)
    /\ exists h'',
         exec stopSession (s', h') [] = ((stopped s', h''), [], Done tt)
         /\ nth_error (contexts h'') 0
            = Some (mkCtx INPUT_SAMPLE_RATE running 0%float)
         /\ nth_error (contexts h'') 1
            = Some (mkCtx OUTPUT_SAMPLE_RATE running 0%float).
Proof.
  intros s h.
  apply (startSession_drops_held_contexts "Photosynthesis" true s h [] 0 1);
    try reflexivity; cbn; lia.
Defined.
